(** * A shallow embedding of the prompt/resumption engine of libmprompt

    Source: src/mprompt/mprompt.c.

    Pointers are modelled as [Z] addresses with [null = 0].  The heap of
    prompts is a [gmap Z prompt]: a prompt lives at the base of its own
    growable stack, so its address also names that stack.  Multi-shot
    resumption records live in a second map.  Calls into collaborators that
    are not part of this file (the gstack allocator, the unwind-frame update,
    diagnostics) are recorded in an event log, in call order.  The debug-only
    [mp_assert_internal] checks are not modelled (release build); the
    preconditions they express appear as hypotheses of the theorems. *)

From stdpp Require Import base gmap list.
From Stdlib Require Import ZArith Lia.

Open Scope Z_scope.

Abbreviation ptr := Z.
Definition null : ptr := 0.

(** ** Types (mprompt.c, lines 28-100) *)

Inductive mp_return_kind_t :=
| MP_RETURN
| MP_EXCEPTION
| MP_YIELD_ONCE
| MP_YIELD_MULTI.

(** [struct mp_return_point_s]: the jump buffer is represented by the
    address of the record itself (it is the first field). *)
Record mp_return_point_t := mkReturnPoint {
  rp_kind : mp_return_kind_t;
  rp_fun  : ptr;
  rp_arg  : ptr;
}.

(** [struct mp_prompt_s] *)
Record mp_prompt_t := mkPrompt {
  parent       : ptr;
  top          : ptr;
  refcount     : Z;
  gstack       : ptr;
  return_point : ptr;
  resume_point : ptr;
  start_fun    : ptr;
  start_arg    : ptr;
  unwind_frame : ptr;
}.

(** A snapshot returned by [mp_gstack_save(gstack, sp)]: the external
    allocator is not modelled beyond the arguments it was given. *)
Record mp_gsave_t := mkGsave { gs_gstack : ptr; gs_sp : ptr }.

(** [struct mp_prompt_save_s]; the [next] links are the list structure. *)
Record mp_prompt_save_t := mkSave { sv_prompt : ptr; sv_gsave : mp_gsave_t }.

(** [struct mp_mresume_s] *)
Record mp_mresume_t := mkMresume {
  mr_refcount          : Z;
  mr_resume_count      : Z;
  mr_prompt            : ptr;
  mr_save              : list mp_prompt_save_t;   (* [] is NULL *)
  mr_tail_return_point : ptr;
}.

(** Calls to collaborators outside this file. *)
Inductive event :=
| EvUnwindFrameUpdate (uf jmp : ptr)
| EvGstackFree (g : ptr) (delay : bool)
| EvGsaveRestore (gs : mp_gsave_t)
| EvGsaveFree (gs : mp_gsave_t)
| EvFree (a : ptr)
| EvFreeSave (sv : mp_prompt_save_t)   (* mp_free of a save node, which has no modelled address *)
| EvErrorMessage (code : Z)
| EvCallYieldFun (f h arg : ptr).

(** The thread state. [next_alloc] is the next fresh (8-byte aligned)
    address handed out by the allocators; [jmp_sp a] is the [reg_sp] saved
    in the jump buffer at address [a] (a resume or return point). *)
Record St := mkSt {
  heap       : gmap Z mp_prompt_t;
  prompt_top : ptr;                 (* _mp_prompt_top *)
  mres       : gmap Z mp_mresume_t;
  events     : list event;
  next_alloc : Z;
  jmp_sp     : ptr -> ptr;
}.

(** ** Field updates *)

Definition set_parent (v : ptr) (p : mp_prompt_t) : mp_prompt_t :=
  mkPrompt v (top p) (refcount p) (gstack p) (return_point p) (resume_point p)
           (start_fun p) (start_arg p) (unwind_frame p).
Definition set_top (v : ptr) (p : mp_prompt_t) : mp_prompt_t :=
  mkPrompt (parent p) v (refcount p) (gstack p) (return_point p) (resume_point p)
           (start_fun p) (start_arg p) (unwind_frame p).
Definition set_refcount (v : Z) (p : mp_prompt_t) : mp_prompt_t :=
  mkPrompt (parent p) (top p) v (gstack p) (return_point p) (resume_point p)
           (start_fun p) (start_arg p) (unwind_frame p).
Definition set_return_point (v : ptr) (p : mp_prompt_t) : mp_prompt_t :=
  mkPrompt (parent p) (top p) (refcount p) (gstack p) v (resume_point p)
           (start_fun p) (start_arg p) (unwind_frame p).
Definition set_resume_point (v : ptr) (p : mp_prompt_t) : mp_prompt_t :=
  mkPrompt (parent p) (top p) (refcount p) (gstack p) (return_point p) v
           (start_fun p) (start_arg p) (unwind_frame p).

Definition set_heap (h : gmap Z mp_prompt_t) (s : St) : St :=
  mkSt h (prompt_top s) (mres s) (events s) (next_alloc s) (jmp_sp s).
Definition set_prompt_top_st (t : ptr) (s : St) : St :=
  mkSt (heap s) t (mres s) (events s) (next_alloc s) (jmp_sp s).
Definition set_mres (m : gmap Z mp_mresume_t) (s : St) : St :=
  mkSt (heap s) (prompt_top s) m (events s) (next_alloc s) (jmp_sp s).
Definition add_event (e : event) (s : St) : St :=
  mkSt (heap s) (prompt_top s) (mres s) (events s ++ [e]) (next_alloc s) (jmp_sp s).
Definition set_next_alloc (n : Z) (s : St) : St :=
  mkSt (heap s) (prompt_top s) (mres s) (events s) n (jmp_sp s).

(** ** A state and error monad: [None] is a crash (NULL or dangling access). *)

Definition M (A : Type) : Type := St -> option (A * St).

Definition mpure {A} (a : A) : M A := fun s => Some (a, s).
Definition sbind {A B} (m : M A) (k : A -> M B) : M B :=
  fun s => match m s with Some (a, s') => k a s' | None => None end.
Definition crash {A} : M A := fun _ => None.

Notation "x <- m ;; k" := (sbind m (fun x => k))
  (at level 100, m at next level, right associativity).
Notation "m ;;; k" := (sbind m (fun _ => k))
  (at level 100, right associativity).

Definition mget : M St := fun s => Some (s, s).
Definition mmodify (f : St -> St) : M unit := fun s => Some (tt, f s).
Definition emit (e : event) : M unit := mmodify (add_event e).

(** [p->...]: reading a prompt. *)
Definition load (p : ptr) : M mp_prompt_t :=
  fun s => match heap s !! p with Some pr => Some (pr, s) | None => None end.

(** [p->field = ...]: writing a prompt. *)
Definition modify_prompt (p : ptr) (f : mp_prompt_t -> mp_prompt_t) : M unit :=
  fun s => match heap s !! p with
           | Some pr => Some (tt, set_heap (<[p := f pr]> (heap s)) s)
           | None => None
           end.

Definition load_mres (r : ptr) : M mp_mresume_t :=
  fun s => match mres s !! r with Some m => Some (m, s) | None => None end.

Definition store_mres (r : ptr) (m : mp_mresume_t) : M unit :=
  fun s => match mres s !! r with
           | Some _ => Some (tt, set_mres (<[r := m]> (mres s)) s)
           | None => None
           end.

(** A fresh 8-byte aligned block (malloc, or a fresh gstack). *)
Definition alloc : M ptr :=
  fun s => Some (next_alloc s, set_next_alloc (next_alloc s + 8) s).

(** ** Prompt chain (lines 148-166) *)

Definition mp_prompt_top : M ptr := fun s => Some (prompt_top s, s).
Definition set_prompt_top (t : ptr) : M unit := mmodify (set_prompt_top_st t).

Definition mp_prompt_parent (p : ptr) : M ptr :=
  if p =? null then mp_prompt_top else pr <- load p ;; mpure (parent pr).

(** [mp_prompt_is_active] (debug only in the source) *)
Definition mp_prompt_is_active (p : ptr) : M bool :=
  if p =? null then mpure false else pr <- load p ;; mpure (top pr =? null).

(** [mp_prompt_create] (lines 185-201): [mp_gstack_alloc] followed by
    [mp_gstack_reserve] carving the prompt at the base of the stack. *)
Definition mp_prompt_create (fn start_arg : ptr) : M ptr :=
  g <- alloc ;;
  let p := g in
  mmodify (fun s => set_heap (<[p := mkPrompt null p 1 g null null fn start_arg null]>
                               (heap s)) s) ;;;
  mpure p.

(** [mp_prompt_link] (lines 244-258) *)
Definition mp_prompt_link (p ret : ptr) : M ptr :=
  t <- mp_prompt_top ;;
  modify_prompt p (set_parent t) ;;;
  pr <- load p ;;
  set_prompt_top (top pr) ;;;
  modify_prompt p (set_top null) ;;;
  (if negb (ret =? null)
   then modify_prompt p (set_return_point ret) ;;;
        pr <- load p ;;
        emit (EvUnwindFrameUpdate (unwind_frame pr) ret)
   else mpure tt) ;;;
  pr <- load p ;;
  mpure (resume_point pr).

(** [mp_prompt_unlink] (lines 261-271) *)
Definition mp_prompt_unlink (p res : ptr) : M ptr :=
  t <- mp_prompt_top ;;
  modify_prompt p (set_top t) ;;;
  pr <- load p ;;
  set_prompt_top (parent pr) ;;;
  modify_prompt p (set_parent null) ;;;
  modify_prompt p (set_resume_point res) ;;;
  pr <- load p ;;
  mpure (return_point pr).

(** [x->jmp.reg_sp] for a resume or return point [x]. *)
Definition read_reg_sp (a : ptr) : M ptr :=
  fun s => if a =? null then None else Some (jmp_sp s a, s).

(** ** Reference counts and freeing (lines 204-241) *)

(** The [while (p != NULL)] loop of [mp_prompt_free].  [mp_gstack_free]
    releases the stack and with it the prompt header at its base.  The
    fuel only bounds the walk: a cyclic chain, on which the C loop would
    not terminate, crashes. *)
Fixpoint mp_prompt_free_loop (fuel : nat) (p : ptr) (delay : bool) : M unit :=
  match fuel with
  | O => crash
  | S n =>
      if p =? null then mpure tt else
      pr <- load p ;;
      let par := parent pr in
      emit (EvGstackFree (gstack pr) delay) ;;;
      mmodify (fun s => set_heap (delete p (heap s)) s) ;;;
      (if negb (par =? null)
       then modify_prompt par (fun q => set_refcount (refcount q - 1) q)
       else mpure tt) ;;;
      mp_prompt_free_loop n par delay
  end.

Definition mp_prompt_free (p : ptr) (delay : bool) : M unit :=
  pr <- load p ;;
  s <- mget ;;
  mp_prompt_free_loop (S (map_size (heap s))) (top pr) delay.

Definition mp_prompt_drop_internal (p : ptr) (delay : bool) : M unit :=
  pr <- load p ;;
  let i := refcount pr in
  modify_prompt p (set_refcount (i - 1)) ;;;
  if i <=? 1 then mp_prompt_free p delay else mpure tt.

Definition mp_prompt_drop (p : ptr) : M unit := mp_prompt_drop_internal p false.
Definition mp_prompt_drop_delayed (p : ptr) : M unit := mp_prompt_drop_internal p true.

Definition mp_prompt_dup (p : ptr) : M ptr :=
  modify_prompt p (fun q => set_refcount (refcount q + 1) q) ;;;
  mpure p.

(** ** Once and multi-shot handles (lines 112-132)

    Bit 2 of a handle tells the two kinds apart. *)

Definition mp_resume_is_once (r : ptr) : ptr :=
  if Z.land r 4 =? 0 then r else null.

Definition mp_resume_is_multi (r : ptr) : ptr :=
  if Z.land r 4 =? 0 then null else Z.lxor r 4.

Definition mp_resume_once (p : ptr) : ptr := p.

Definition mp_resume_multi (r : ptr) : ptr := Z.lor r 4.

(** ** Control transfers

    A [mp_longjmp] or [mp_gstack_enter] does not return: the modelled
    functions stop there and report the transfer they perform. *)
Inductive transfer :=
| TResume (res arg : ptr)       (* res->result = arg; mp_longjmp(&res->jmp) *)
| TEnter (g p arg : ptr)        (* mp_gstack_enter(g, &p->return_point, mp_prompt_stack_entry, {p,arg}) *)
| TReturn (ret : ptr) (fields : mp_return_point_t).
                                (* ret->kind/fun/arg = fields; mp_longjmp(&ret->jmp) *)

(** What the receiver [mp_prompt_exec_yield_fun] does after the jump back. *)
Inductive outcome :=
| OCall (f h arg : ptr)         (* return (f)(h, arg) *)
| OValue (v : ptr)              (* return v *)
| ORethrow.                     (* std::rethrow_exception(ret->exn) *)

(** RET in [mp_prompt_stack_entry] (lines 295-301), after the start
    function returned [result]. *)
Definition mp_prompt_stack_return (p result : ptr) : M transfer :=
  ret <- mp_prompt_unlink p null ;;
  if ret =? null then crash             (* ret->arg = result dereferences NULL *)
  else mpure (TReturn ret (mkReturnPoint MP_RETURN null result)).

(** [mp_prompt_exec_yield_fun] (lines 317-346); [ret] is the content of
    the return point filled in by the yielder. *)
Definition mp_prompt_exec_yield_fun (ret : mp_return_point_t) (p : ptr) : M outcome :=
  match rp_kind ret with
  | MP_YIELD_ONCE => mpure (OCall (rp_fun ret) (mp_resume_once p) (rp_arg ret))
  | MP_RETURN =>
      let result := rp_arg ret in
      mp_prompt_drop p ;;;
      mpure (OValue result)
  | MP_YIELD_MULTI =>
      r <- alloc ;;
      pr <- load p ;;
      mmodify (fun s => set_mres (<[r := mkMresume 1 0 p [] (return_point pr)]> (mres s)) s) ;;;
      mpure (OCall (rp_fun ret) (mp_resume_multi r) (rp_arg ret))
  | MP_EXCEPTION =>
      mp_prompt_drop_delayed p ;;;
      mpure ORethrow
  end.

(** [mp_prompt_resume] (lines 349-372), up to its control transfer; the
    local [ret] is a fresh address on the current stack. *)
Definition mp_prompt_resume (p arg : ptr) : M transfer :=
  ret <- alloc ;;
  res <- mp_prompt_link p ret ;;
  if negb (res =? null) then mpure (TResume res arg)
  else pr <- load p ;; mpure (TEnter (gstack pr) p arg).

(** [mp_prompt_resume_tail] (lines 412-419) *)
Definition mp_prompt_resume_tail (p arg ret : ptr) : M transfer :=
  res <- mp_prompt_link p ret ;;
  if res =? null then crash else mpure (TResume res arg).

(** [mp_yield_internal] (lines 464-483), up to the jump (YR); the local
    resume point [res] is a fresh address on the yielding stack. *)
Definition mp_yield_internal (rkind : mp_return_kind_t) (p fn arg : ptr) : M transfer :=
  res <- alloc ;;
  ret <- mp_prompt_unlink p res ;;
  if ret =? null then crash             (* ret->fun = fun dereferences NULL *)
  else mpure (TReturn ret (mkReturnPoint rkind fn arg)).

(** ** Multi-shot resumptions (lines 502-597) *)

Definition set_mr_refcount (v : Z) (m : mp_mresume_t) : mp_mresume_t :=
  mkMresume v (mr_resume_count m) (mr_prompt m) (mr_save m) (mr_tail_return_point m).
Definition set_mr_resume_count (v : Z) (m : mp_mresume_t) : mp_mresume_t :=
  mkMresume (mr_refcount m) v (mr_prompt m) (mr_save m) (mr_tail_return_point m).
Definition set_mr_save (v : list mp_prompt_save_t) (m : mp_mresume_t) : mp_mresume_t :=
  mkMresume (mr_refcount m) (mr_resume_count m) (mr_prompt m) v (mr_tail_return_point m).
Definition set_mr_tail (v : ptr) (m : mp_mresume_t) : mp_mresume_t :=
  mkMresume (mr_refcount m) (mr_resume_count m) (mr_prompt m) (mr_save m) v.

Definition modify_mres (r : ptr) (f : mp_mresume_t -> mp_mresume_t) : M unit :=
  m <- load_mres r ;; store_mres r (f m).

Definition mp_mresume_dup (r : ptr) : M ptr :=
  modify_mres r (fun m => set_mr_refcount (mr_refcount m + 1) m) ;;;
  mpure r.

(** The [while (s != NULL)] loop of [mp_mresume_drop]. *)
Fixpoint mp_mresume_drop_saves (ss : list mp_prompt_save_t) : M unit :=
  match ss with
  | [] => mpure tt
  | sv :: next =>
      emit (EvGsaveFree (sv_gsave sv)) ;;;
      emit (EvFreeSave sv) ;;;
      mp_prompt_drop (sv_prompt sv) ;;;
      mp_mresume_drop_saves next
  end.

Definition mp_mresume_drop (r : ptr) : M unit :=
  m <- load_mres r ;;
  let i := mr_refcount m in
  store_mres r (set_mr_refcount (i - 1) m) ;;;
  if i <=? 1 then
    mp_mresume_drop_saves (mr_save m) ;;;
    m <- load_mres r ;;
    mp_prompt_drop (mr_prompt m) ;;;
    mmodify (fun s => set_mres (delete r (mres s)) s) ;;;
    emit (EvFree r)
  else mpure tt.

(** The do-while loop of [mp_prompt_save]: each visited prompt is dup'ed
    and its snapshot node is pushed on the front of [savep]. *)
Fixpoint mp_prompt_save_loop (fuel : nat) (p sp : ptr) (savep : list mp_prompt_save_t)
  : M (list mp_prompt_save_t) :=
  match fuel with
  | O => crash
  | S n =>
      q <- mp_prompt_dup p ;;
      pr <- load p ;;
      let savep := mkSave q (mkGsave (gstack pr) sp) :: savep in
      sp <- (if parent pr =? null then mpure null else read_reg_sp (return_point pr)) ;;
      let p := parent pr in
      if p =? null then mpure savep else mp_prompt_save_loop n p sp savep
  end.

(** [mp_prompt_save] (lines 530-546) *)
Definition mp_prompt_save (p : ptr) : M (list mp_prompt_save_t) :=
  pr <- load p ;;
  sp <- read_reg_sp (resume_point pr) ;;
  s <- mget ;;
  mp_prompt_save_loop (S (map_size (heap s))) (top pr) sp [].

(** The do-while loop of [mp_prompt_restore]. *)
Fixpoint mp_prompt_restore_loop (save : list mp_prompt_save_t) : M unit :=
  match save with
  | [] => mpure tt
  | sv :: next => emit (EvGsaveRestore (sv_gsave sv)) ;;; mp_prompt_restore_loop next
  end.

(** [mp_prompt_restore] (lines 549-558); a do-while on a NULL list
    dereferences NULL. *)
Definition mp_prompt_restore (p : ptr) (save : list mp_prompt_save_t) : M unit :=
  match save with
  | [] => crash
  | _ => mp_prompt_restore_loop save
  end.

(** [mp_resume_get_prompt] (lines 562-573), the prepare step. *)
Definition mp_resume_get_prompt (r : ptr) : M ptr :=
  m <- load_mres r ;;
  let p := mr_prompt m in
  (match mr_save m with
   | _ :: _ => mp_prompt_restore p (mr_save m)
   | [] =>
       c <- (if 1 <? mr_refcount m then mpure true
             else pr <- load p ;; mpure (1 <? refcount pr)) ;;
       if c then
         sv <- mp_prompt_save p ;;
         modify_mres r (set_mr_save sv)
       else mpure tt
   end) ;;;
  mp_prompt_dup p ;;;
  mp_mresume_drop r ;;;
  mpure p.

(** [mp_mresume] (lines 577-581) *)
Definition mp_mresume (r arg : ptr) : M transfer :=
  modify_mres r (fun m => set_mr_resume_count (mr_resume_count m + 1) m) ;;;
  p <- mp_resume_get_prompt r ;;
  mp_prompt_resume p arg.

(** [mp_mresume_tail] (lines 586-597) *)
Definition mp_mresume_tail (r arg : ptr) : M transfer :=
  m <- load_mres r ;;
  let ret := mr_tail_return_point m in
  if ret =? null then mp_mresume r arg
  else
    modify_mres r (set_mr_tail null) ;;;
    modify_mres r (fun m => set_mr_resume_count (mr_resume_count m + 1) m) ;;;
    p <- mp_resume_get_prompt r ;;
    mp_prompt_resume_tail p arg ret.

(** ** The public resumption interface (lines 400-456) *)

Definition mp_resume (resume arg : ptr) : M transfer :=
  let p := mp_resume_is_once resume in
  if p =? null then mp_mresume (mp_resume_is_multi resume) arg
  else mp_prompt_resume p arg.

Definition mp_resume_tail (resume arg : ptr) : M transfer :=
  let p := mp_resume_is_once resume in
  if p =? null then mp_mresume_tail (mp_resume_is_multi resume) arg
  else pr <- load p ;; mp_prompt_resume_tail p arg (return_point pr).

Definition mp_resume_drop (resume : ptr) : M unit :=
  let p := mp_resume_is_once resume in
  if p =? null then mp_mresume_drop (mp_resume_is_multi resume)
  else mp_prompt_drop p.

Definition EINVAL : Z := 22.

Definition mp_resume_dup (resume : ptr) : M ptr :=
  let r := mp_resume_is_multi resume in
  if r =? null then
    emit (EvErrorMessage EINVAL) ;;;
    mpure null
  else
    mp_mresume_dup r ;;;
    mpure resume.

Definition mp_resume_resume_count (resume : ptr) : M Z :=
  let r := mp_resume_is_multi resume in
  if r =? null then mpure 0
  else m <- load_mres r ;; mpure (mr_resume_count m).

Definition mp_resume_should_unwind (resume : ptr) : M bool :=
  let r := mp_resume_is_multi resume in
  if r =? null then mpure false
  else m <- load_mres r ;; mpure ((mr_refcount m =? 1) && (mr_resume_count m =? 0)).

(** [mp_prompt_is_ancestor] (lines 175-181, debug only in the source):
    [while ((q = mp_prompt_parent(q)) != NULL) if (q == p) return true;] *)
Fixpoint mp_prompt_is_ancestor_loop (fuel : nat) (q p : ptr) : M bool :=
  match fuel with
  | O => crash
  | S n =>
      q <- mp_prompt_parent q ;;
      if q =? null then mpure false
      else if q =? p then mpure true
      else mp_prompt_is_ancestor_loop n q p
  end.

Definition mp_prompt_is_ancestor (p : ptr) : M bool :=
  s <- mget ;;
  mp_prompt_is_ancestor_loop (S (S (map_size (heap s)))) null p.

(** ** Further entry points *)

(** [mp_gstack_current] (lines 157-160) *)
Definition mp_gstack_current : M ptr :=
  top <- mp_prompt_top ;;
  if negb (top =? null) then pr <- load top ;; mpure (gstack pr) else mpure null.

(** [mp_yield] and [mp_yieldm] (lines 486-494) *)
Definition mp_yield (p fn arg : ptr) : M transfer :=
  mp_yield_internal MP_YIELD_ONCE p fn arg.

Definition mp_yieldm (p fn arg : ptr) : M transfer :=
  mp_yield_internal MP_YIELD_MULTI p fn arg.

(** [mp_prompt] (lines 381-384); [mp_startc_fun] is the address of the
    static start function that calls [fun(p, arg)]. *)
Section Entry.
Variable mp_startc_fun : ptr.

Definition mp_prompt (fn arg : ptr) : M transfer :=
  r <- mp_prompt_create mp_startc_fun fn ;;
  mp_resume r arg.

End Entry.

(** ** The prompt chains

    [chain h q ps]: walking [parent] links from [q] visits the prompts [ps]
    and then reaches NULL. *)
Inductive chain (h : gmap Z mp_prompt_t) : ptr -> list ptr -> Prop :=
| chain_nil : chain h null []
| chain_cons q pr ps :
    q <> null -> h !! q = Some pr -> chain h (parent pr) ps -> chain h q (q :: ps).

Definition top_of (h : gmap Z mp_prompt_t) (q : ptr) : ptr :=
  match h !! q with Some pr => top pr | None => null end.

(** The current chain, from [_mp_prompt_top], consists of active prompts. *)
Definition current_chain_ok (s : St) : Prop :=
  exists cur, chain (heap s) (prompt_top s) cur /\
              forall q, In q cur -> top_of (heap s) q = null.

(** A suspended prompt [p] roots a captured chain: walking from [p->top]
    reaches [p] (whose [parent] is NULL); the other prompts of the captured
    chain have [top == NULL]. *)
Definition captured_chains_ok (h : gmap Z mp_prompt_t) : Prop :=
  forall p pr, h !! p = Some pr -> top pr <> null ->
    exists seg, chain h (top pr) seg /\ last seg = Some p /\
                forall q, In q seg -> q <> p -> top_of h q = null.

Definition prompt_chain_inv (s : St) : Prop :=
  current_chain_ok s /\ captured_chains_ok (heap s).

(** The operations that change the state of a prompt. *)
Inductive chain_op :=
| OpCreate (fn start_arg : ptr)
| OpLink (p ret : ptr)
| OpUnlink (p res : ptr)
| OpFree (p : ptr) (delay : bool)
| OpDrop (p : ptr) (delay : bool).

Definition run_chain_op (o : chain_op) : M ptr :=
  match o with
  | OpCreate fn a => mp_prompt_create fn a
  | OpLink p ret => mp_prompt_link p ret
  | OpUnlink p res => mp_prompt_unlink p res
  | OpFree p d => mp_prompt_free p d ;;; mpure null
  | OpDrop p d => mp_prompt_drop_internal p d ;;; mpure null
  end.

(** The state after an operation (unchanged if it crashes). *)
Definition run_chain_state (o : chain_op) (s : St) : St :=
  match run_chain_op o s with Some (_, s') => s' | None => s end.

(** The preconditions the source asserts (or relies on) for each operation. *)
Definition chain_op_pre (s : St) (o : chain_op) : Prop :=
  match o with
  | OpCreate _ _ => next_alloc s <> null /\ heap s !! next_alloc s = None
  | OpLink p _ => exists pr, heap s !! p = Some pr /\ top pr <> null
  | OpUnlink p _ => mp_prompt_is_ancestor p s = Some (true, s)
  | OpFree p _ | OpDrop p _ => exists pr, heap s !! p = Some pr
  end.

(** Prompt fields after [mp_prompt_unlink] and [mp_prompt_link]. *)
Definition unlink_result (pr : mp_prompt_t) (t res : ptr) : mp_prompt_t :=
  mkPrompt null t (refcount pr) (gstack pr) (return_point pr) res
           (start_fun pr) (start_arg pr) (unwind_frame pr).

Definition link_result (pr : mp_prompt_t) (t ret : ptr) : mp_prompt_t :=
  mkPrompt t null (refcount pr) (gstack pr)
           (if ret =? null then return_point pr else ret) (resume_point pr)
           (start_fun pr) (start_arg pr) (unwind_frame pr).

(** ** Concrete runs *)

Definition init_st : St := mkSt ∅ null ∅ [] 8 (fun a => a + 1).

(** Three nested prompts R, A, B are entered (PI); B's start function then
    yields to A, capturing the chain B -> A. *)
Definition nested_yield : M (ptr * ptr * ptr) :=
  pR <- mp_prompt_create 100 0 ;;
  mp_prompt_resume pR 0 ;;;
  pA <- mp_prompt_create 100 0 ;;
  mp_prompt_resume pA 0 ;;;
  pB <- mp_prompt_create 100 0 ;;
  mp_prompt_resume pB 0 ;;;
  mp_yield_internal MP_YIELD_ONCE pA 200 0 ;;;
  mpure (pR, pA, pB).

(** The state reached by [nested_yield] from [init_st]. *)
Definition nested_state : St :=
  match nested_yield init_st with Some (_, s) => s | None => init_st end.

(** As [nested_yield], but B's start function yields to A with a
    multi-shot resumption, which A's receiver then allocates. *)
Definition multi_yield : M (ptr * outcome) :=
  pR <- mp_prompt_create 100 0 ;;
  mp_prompt_resume pR 0 ;;;
  pA <- mp_prompt_create 100 0 ;;
  mp_prompt_resume pA 0 ;;;
  pB <- mp_prompt_create 100 0 ;;
  mp_prompt_resume pB 0 ;;;
  t <- mp_yield_internal MP_YIELD_MULTI pA 200 0 ;;
  match t with
  | TReturn _ rp => o <- mp_prompt_exec_yield_fun rp pA ;; mpure (pA, o)
  | _ => crash
  end.

Definition multi_state : St :=
  match multi_yield init_st with Some (_, s) => s | None => init_st end.

(** The last three statements of [mp_resume_get_prompt]. *)
Definition get_prompt_tail (r p : ptr) : M ptr :=
  mp_prompt_dup p ;;;
  mp_mresume_drop r ;;;
  mpure p.

Definition add_events (es : list event) (s : St) : St :=
  mkSt (heap s) (prompt_top s) (mres s) (events s ++ es) (next_alloc s) (jmp_sp s).

Definition inc_refcount (pr : mp_prompt_t) : mp_prompt_t :=
  set_refcount (refcount pr + 1) pr.

(** * Proofs *)

Ltac mrun :=
  repeat (unfold sbind, mpure, mmodify, emit, load, modify_prompt, mget,
          mp_prompt_top, set_prompt_top; simpl;
          repeat match goal with
          | H : ?x = Some _ |- context [?x] => rewrite H
          | |- context [<[?k := _]> _ !! ?k] => rewrite lookup_insert_eq
          | |- context [<[?k := _]> (<[?k := _]> _)] => rewrite insert_insert_eq
          end).

Lemma unlink_eq s p res pr :
  heap s !! p = Some pr ->
  mp_prompt_unlink p res s =
  Some (return_point pr,
        mkSt (<[p := unlink_result pr (prompt_top s) res]> (heap s)) (parent pr)
             (mres s) (events s) (next_alloc s) (jmp_sp s)).
Proof.
  intros Hp. unfold mp_prompt_unlink. mrun. reflexivity.
Qed.

Lemma link_eq s p ret pr :
  heap s !! p = Some pr ->
  mp_prompt_link p ret s =
  Some (resume_point pr,
        mkSt (<[p := link_result pr (prompt_top s) ret]> (heap s)) (top pr)
             (mres s)
             (events s ++ (if ret =? null then [] else [EvUnwindFrameUpdate (unwind_frame pr) ret]))
             (next_alloc s) (jmp_sp s)).
Proof.
  intros Hp. unfold mp_prompt_link. mrun.
  unfold link_result. destruct (ret =? null); simpl; mrun.
  - rewrite app_nil_r. reflexivity.
  - reflexivity.
Qed.

(** ** Chains *)

Section Chains.
Variable h : gmap Z mp_prompt_t.

Lemma chain_elem q ps x :
  chain h q ps -> In x ps -> x <> null /\ exists pr, h !! x = Some pr.
Proof.
  induction 1 as [|q' pr ps Hq Hl Hc IH]; simpl; [tauto|].
  intros [<-|Hx]; eauto.
Qed.

Lemma chain_det q ps1 ps2 : chain h q ps1 -> chain h q ps2 -> ps1 = ps2.
Proof.
  intros H1. revert ps2.
  induction H1 as [|q pr ps Hq Hl Hc IH]; intros ps2 H2; inversion H2; subst.
  - reflexivity.
  - congruence.
  - congruence.
  - f_equal. apply IH. congruence.
Qed.

Lemma chain_split q ps x :
  chain h q ps -> In x ps -> exists xs ys, ps = xs ++ x :: ys /\ chain h x (x :: ys).
Proof.
  induction 1 as [|q pr ps Hq Hl Hc IH]; simpl; [tauto|].
  intros [<-|Hx].
  - exists [], ps. split; [reflexivity|]. econstructor; eauto.
  - destruct (IH Hx) as (xs & ys & -> & Hc').
    exists (q :: xs), ys. split; [reflexivity|exact Hc'].
Qed.

Lemma chain_nodup q ps : chain h q ps -> NoDup ps.
Proof.
  intros Hc. induction Hc as [|q pr ps Hq Hl Hc IH]; constructor; auto.
  intros Hin. apply list_elem_of_In in Hin.
  destruct (chain_split _ _ _ Hc Hin) as (xs & ys & Heq & Hc').
  assert (q :: ps = q :: ys) as Heq2.
  { apply (chain_det q); [econstructor; eauto | exact Hc']. }
  injection Heq2 as ->.
  assert (length ys = length (xs ++ q :: ys)) as Hlen by (rewrite <- Heq; reflexivity).
  rewrite length_app in Hlen. simpl in Hlen. lia.
Qed.

Lemma chain_last_common q1 q2 ps1 ps2 x :
  chain h q1 ps1 -> chain h q2 ps2 -> In x ps1 -> In x ps2 -> last ps1 = last ps2.
Proof.
  intros H1 H2 I1 I2.
  destruct (chain_split _ _ _ H1 I1) as (xs1 & ys1 & -> & C1).
  destruct (chain_split _ _ _ H2 I2) as (xs2 & ys2 & -> & C2).
  rewrite !last_app_cons. f_equal. exact (chain_det _ _ _ C1 C2).
Qed.

Lemma chain_nonnull q ps : chain h q (ps) -> ps <> [] -> q <> null.
Proof. inversion 1; congruence. Qed.

End Chains.

(** A chain survives a heap change that keeps its prompts and their
    [parent] links. *)
Lemma chain_mono h h' q ps :
  chain h q ps ->
  (forall x pr, In x ps -> h !! x = Some pr ->
     exists pr', h' !! x = Some pr' /\ parent pr' = parent pr) ->
  chain h' q ps.
Proof.
  induction 1 as [|q pr ps Hq Hl Hc IH]; intros Hk; [constructor|].
  destruct (Hk q pr (or_introl eq_refl) Hl) as (pr' & Hl' & Hp').
  econstructor; [exact Hq | exact Hl' |]. rewrite Hp'.
  apply IH. intros x prx Hx Hlx. apply Hk; simpl; auto.
Qed.

Lemma chain_insert_notin h q ps p x :
  chain h q ps -> ~ In p ps -> chain (<[p := x]> h) q ps.
Proof.
  intros Hc Hn. apply (chain_mono h); [exact Hc|].
  intros y pr Hy Hl. exists pr. split; [|reflexivity].
  rewrite lookup_insert_ne; [exact Hl|]. intros ->. contradiction.
Qed.

Lemma top_of_insert_ne h p x q : p <> q -> top_of (<[p := x]> h) q = top_of h q.
Proof. intros Hne. unfold top_of. rewrite lookup_insert_ne; auto. Qed.

Lemma top_of_Some h q pr : h !! q = Some pr -> top_of h q = top pr.
Proof. intros Hl. unfold top_of. rewrite Hl. reflexivity. Qed.

Lemma top_of_insert_eq h p x : top_of (<[p := x]> h) p = top x.
Proof. unfold top_of. rewrite lookup_insert_eq. reflexivity. Qed.

Lemma chain_relink h p pr' q xs cur :
  chain h q (xs ++ [p]) -> ~ In p xs ->
  chain (<[p := pr']> h) (parent pr') cur ->
  chain (<[p := pr']> h) q (xs ++ p :: cur).
Proof.
  revert q. induction xs as [|y xs IH]; intros q Hc Hn Hcur; simpl in *.
  - inversion Hc; subst. econstructor; [assumption | apply lookup_insert_eq | exact Hcur].
  - inversion Hc as [|q' pr0 ps Hq Hl Hc']; subst.
    econstructor; [assumption | rewrite lookup_insert_ne; [exact Hl | intros Heq; apply Hn; left; congruence] |].
    apply IH; tauto.
Qed.

Lemma chain_cut h p pr' q xs ys :
  chain h q (xs ++ p :: ys) -> ~ In p xs -> parent pr' = null ->
  chain (<[p := pr']> h) q (xs ++ [p]).
Proof.
  revert q. induction xs as [|y xs IH]; intros q Hc Hn Hpar; simpl in *.
  - inversion Hc; subst. econstructor; [assumption | apply lookup_insert_eq |].
    rewrite Hpar. constructor.
  - inversion Hc as [|q' pr0 ps Hq Hl Hc']; subst.
    econstructor; [assumption | rewrite lookup_insert_ne; [exact Hl | intros Heq; apply Hn; left; congruence] |].
    apply IH; tauto.
Qed.

Lemma last_In {A} (l : list A) x : last l = Some x -> In x l.
Proof.
  intros Hl. apply last_Some in Hl as [l' ->]. apply in_or_app. simpl. tauto.
Qed.

Lemma NoDup_app_last_notin (xs : list ptr) p : NoDup (xs ++ [p]) -> ~ In p xs.
Proof.
  intros Hnd Hin. apply NoDup_app in Hnd as (_ & Hdis & _).
  apply (Hdis p); [apply list_elem_of_In; exact Hin | left].
Qed.

(** [mp_prompt_link] on a suspended prompt keeps the chain invariant. *)
Lemma link_preserves_inv s p ret pr :
  prompt_chain_inv s -> heap s !! p = Some pr -> top pr <> null ->
  prompt_chain_inv
    (mkSt (<[p := link_result pr (prompt_top s) ret]> (heap s)) (top pr)
          (mres s) (events s ++ (if ret =? null then [] else [EvUnwindFrameUpdate (unwind_frame pr) ret]))
          (next_alloc s) (jmp_sp s)).
Proof.
  intros [(cur & Hcur & Htcur) Hcap] Hp Htop.
  set (pr' := link_result pr (prompt_top s) ret).
  assert (Hpcur : ~ In p cur).
  { intros Hin. specialize (Htcur p Hin). rewrite (top_of_Some _ _ _ Hp) in Htcur. contradiction. }
  destruct (Hcap p pr Hp Htop) as (seg & Hseg & Hlast & Htseg).
  apply last_Some in Hlast as [xs Hxs]. subst seg.
  assert (Hnxs : ~ In p xs) by exact (NoDup_app_last_notin xs p (chain_nodup _ _ _ Hseg)).
  split.
  - exists (xs ++ p :: cur). simpl. split.
    + apply chain_relink; [exact Hseg | exact Hnxs |].
      apply chain_insert_notin; assumption.
    + intros q Hq. destruct (decide (q = p)) as [->|Hne].
      * rewrite top_of_insert_eq. reflexivity.
      * rewrite top_of_insert_ne by congruence.
        apply in_app_or in Hq as [Hq|[Hq|Hq]]; [|congruence|auto].
        apply Htseg; [apply in_or_app; tauto | exact Hne].
  - simpl. intros p' pr'' Hl' Ht'.
    destruct (decide (p' = p)) as [->|Hne].
    { rewrite lookup_insert_eq in Hl'. injection Hl' as <-. simpl in Ht'. contradiction. }
    rewrite lookup_insert_ne in Hl' by congruence.
    destruct (Hcap p' pr'' Hl' Ht') as (seg' & Hseg' & Hlast' & Htseg').
    assert (Hpseg' : ~ In p seg').
    { intros Hin. specialize (Htseg' p Hin (not_eq_sym Hne)).
      rewrite (top_of_Some _ _ _ Hp) in Htseg'. contradiction. }
    exists seg'. split; [apply chain_insert_notin; assumption|]. split; [exact Hlast'|].
    intros q Hq Hqne. rewrite top_of_insert_ne by (intros ->; contradiction).
    apply Htseg'; assumption.
Qed.

Lemma ancestor_loop_in fuel s q q0 cur p s' :
  mp_prompt_parent q s = Some (q0, s) -> chain (heap s) q0 cur ->
  mp_prompt_is_ancestor_loop fuel q p s = Some (true, s') -> In p cur.
Proof.
  revert q q0 cur. induction fuel as [|n IH]; intros q q0 cur Hpar Hc Hloop; simpl in Hloop.
  - discriminate.
  - unfold sbind in Hloop. rewrite Hpar in Hloop.
    destruct (q0 =? null) eqn:Hn; [discriminate|].
    destruct (q0 =? p) eqn:Hp.
    + apply Z.eqb_eq in Hp. subst p.
      inversion Hc as [Hq0|q1 pr ps Hq Hl Hc']; subst;
        [unfold null in Hn; rewrite Z.eqb_refl in Hn; discriminate | simpl; tauto].
    + inversion Hc as [Hq0|q1 pr ps Hq Hl Hc']; subst.
      * unfold null in Hn. rewrite Z.eqb_refl in Hn. discriminate.
      * right. apply (IH q0 (parent pr) ps); [| exact Hc' | exact Hloop].
        unfold mp_prompt_parent. apply Z.eqb_neq in Hq. rewrite Hq. mrun. reflexivity.
Qed.

Lemma ancestor_in_current s p cur :
  mp_prompt_is_ancestor p s = Some (true, s) ->
  chain (heap s) (prompt_top s) cur -> In p cur.
Proof.
  intros Ha Hc. unfold mp_prompt_is_ancestor, sbind, mget in Ha.
  eapply ancestor_loop_in; [| exact Hc | exact Ha]. reflexivity.
Qed.

(** [mp_prompt_unlink] on an ancestor of the current top keeps the chain
    invariant. *)
Lemma unlink_preserves_inv s p res pr :
  prompt_chain_inv s -> heap s !! p = Some pr ->
  mp_prompt_is_ancestor p s = Some (true, s) ->
  prompt_chain_inv
    (mkSt (<[p := unlink_result pr (prompt_top s) res]> (heap s)) (parent pr)
          (mres s) (events s) (next_alloc s) (jmp_sp s)).
Proof.
  intros [(cur & Hcur & Htcur) Hcap] Hp Hanc.
  pose proof (ancestor_in_current _ _ _ Hanc Hcur) as Hin.
  pose proof (chain_nodup _ _ _ Hcur) as Hnd.
  destruct (chain_split _ _ _ _ Hcur Hin) as (xs & ys & Hcureq & Hpc).
  inversion Hpc as [|q0 pr0 ps Hq0 Hl Hys]; subst. rewrite Hp in Hl. injection Hl as <-.
  apply NoDup_app in Hnd as (Hndxs & Hdis & Hndys).
  assert (Hnxs : ~ In p xs).
  { intros Hx. apply (Hdis p); [apply list_elem_of_In; exact Hx | left]. }
  assert (Hnys : ~ In p ys).
  { inversion Hndys as [|? ? Hn _]. intros Hy. apply Hn. apply list_elem_of_In. exact Hy. }
  assert (Htop : prompt_top s <> null).
  { apply (chain_nonnull _ _ _ Hcur). destruct xs; discriminate. }
  split.
  - exists ys. simpl. split; [apply chain_insert_notin; assumption|].
    intros q Hq. rewrite top_of_insert_ne by (intros ->; contradiction).
    apply Htcur. apply in_or_app. simpl. tauto.
  - simpl. intros p' pr'' Hl' Ht'.
    destruct (decide (p' = p)) as [->|Hne].
    + rewrite lookup_insert_eq in Hl'. injection Hl' as <-. simpl.
      exists (xs ++ [p]). split; [|split].
      * apply (chain_cut _ _ _ _ _ ys); [exact Hcur | exact Hnxs | reflexivity].
      * apply last_snoc.
      * intros q Hq Hqne. rewrite top_of_insert_ne by congruence.
        apply Htcur. apply in_app_or in Hq as [Hq|[Hq|[]]]; [|congruence].
        apply in_or_app. tauto.
    + rewrite lookup_insert_ne in Hl' by congruence.
      destruct (Hcap p' pr'' Hl' Ht') as (seg' & Hseg' & Hlast' & Htseg').
      assert (Hpseg' : ~ In p seg').
      { intros Hps. pose proof (chain_last_common _ _ _ _ _ _ Hseg' Hcur Hps Hin) as Hl2.
        rewrite Hlast' in Hl2. symmetry in Hl2. apply last_In in Hl2.
        specialize (Htcur p' Hl2). rewrite (top_of_Some _ _ _ Hl') in Htcur. contradiction. }
      exists seg'. split; [apply chain_insert_notin; assumption|]. split; [exact Hlast'|].
      intros q Hq Hqne. rewrite top_of_insert_ne by (intros ->; contradiction).
      apply Htseg'; assumption.
Qed.

Lemma create_eq s fn a :
  mp_prompt_create fn a s =
  Some (next_alloc s,
        mkSt (<[next_alloc s := mkPrompt null (next_alloc s) 1 (next_alloc s) null null fn a null]> (heap s))
             (prompt_top s) (mres s) (events s) (next_alloc s + 8) (jmp_sp s)).
Proof. reflexivity. Qed.

(** [mp_prompt_create] at a fresh address keeps the chain invariant. *)
Lemma create_preserves_inv s fn a :
  prompt_chain_inv s -> next_alloc s <> null -> heap s !! next_alloc s = None ->
  prompt_chain_inv
    (mkSt (<[next_alloc s := mkPrompt null (next_alloc s) 1 (next_alloc s) null null fn a null]> (heap s))
          (prompt_top s) (mres s) (events s) (next_alloc s + 8) (jmp_sp s)).
Proof.
  intros [(cur & Hcur & Htcur) Hcap] Hnn Hfresh.
  remember (next_alloc s) as n eqn:Hn.
  assert (Hnotin : forall q ps, chain (heap s) q ps -> ~ In n ps).
  { intros q ps Hc Hin. destruct (chain_elem _ _ _ _ Hc Hin) as [_ [pr Hl]]. congruence. }
  split.
  - exists cur. simpl. split; [apply chain_insert_notin; eauto|].
    intros q Hq. rewrite top_of_insert_ne by (intros ->; eapply Hnotin; eauto). auto.
  - simpl. intros p' pr'' Hl' Ht'.
    destruct (decide (p' = n)) as [->|Hne].
    + rewrite lookup_insert_eq in Hl'. injection Hl' as <-. simpl.
      exists [n]. split; [|split; [reflexivity|]].
      * econstructor; [exact Hnn | apply lookup_insert_eq | constructor].
      * intros q [->|[]] Hq. congruence.
    + rewrite lookup_insert_ne in Hl' by congruence.
      destruct (Hcap p' pr'' Hl' Ht') as (seg' & Hseg' & Hlast' & Htseg').
      exists seg'. split; [apply chain_insert_notin; eauto|]. split; [exact Hlast'|].
      intros q Hq Hqne. rewrite top_of_insert_ne by (intros ->; eapply Hnotin; eauto).
      auto.
Qed.

(** Changing a prompt without touching its [parent] and [top] links (a
    reference count update) keeps the chain invariant. *)
Lemma same_links_preserves_inv s p pr pr' :
  prompt_chain_inv s -> heap s !! p = Some pr ->
  parent pr' = parent pr -> top pr' = top pr ->
  prompt_chain_inv (set_heap (<[p := pr']> (heap s)) s).
Proof.
  intros [(cur & Hcur & Htcur) Hcap] Hp Hpar Htop.
  assert (Hmono : forall q ps, chain (heap s) q ps -> chain (<[p := pr']> (heap s)) q ps).
  { intros q ps Hc. apply (chain_mono (heap s)); [exact Hc|].
    intros x prx _ Hx. destruct (decide (x = p)) as [->|Hne].
    - rewrite lookup_insert_eq. rewrite Hp in Hx. injection Hx as <-. eauto.
    - rewrite lookup_insert_ne by congruence. eauto. }
  assert (Htops : forall q, top_of (<[p := pr']> (heap s)) q = top_of (heap s) q).
  { intros q. destruct (decide (q = p)) as [->|Hne].
    - rewrite top_of_insert_eq, (top_of_Some _ _ _ Hp). exact Htop.
    - apply top_of_insert_ne. congruence. }
  split.
  - exists cur. simpl. split; [auto|]. intros q Hq. rewrite Htops. auto.
  - simpl. intros p' pr'' Hl' Ht'.
    assert (Hl0 : exists pr0, heap s !! p' = Some pr0 /\ top pr0 = top pr'').
    { destruct (decide (p' = p)) as [->|Hne].
      - rewrite lookup_insert_eq in Hl'. injection Hl' as <-. eauto.
      - rewrite lookup_insert_ne in Hl' by congruence. eauto. }
    destruct Hl0 as (pr0 & Hl0 & Ht0). rewrite <- Ht0 in Ht' |- *.
    destruct (Hcap p' pr0 Hl0 Ht') as (seg' & Hseg' & Hlast' & Htseg').
    exists seg'. split; [auto|]. split; [exact Hlast'|].
    intros q Hq Hqne. rewrite Htops. auto.
Qed.

Lemma chain_length_le h q ps : chain h q ps -> (length ps <= map_size h)%nat.
Proof.
  intros Hc.
  assert (Hsub : list_to_set ps ⊆@{gset Z} dom h).
  { intros x Hx. apply elem_of_list_to_set, list_elem_of_In in Hx.
    apply elem_of_dom. destruct (chain_elem _ _ _ _ Hc Hx) as [_ [pr Hl]]. rewrite Hl. eauto. }
  rewrite <- (size_list_to_set (C:=gset Z) ps) by exact (chain_nodup _ _ _ Hc).
  transitivity (size (dom h)); [apply subseteq_size; exact Hsub|].
  rewrite size_dom. reflexivity.
Qed.
Lemma free_loop_spec d ps : forall fuel q s,
  chain (heap s) q ps -> (length ps < fuel)%nat ->
  exists s'', mp_prompt_free_loop fuel q d s = Some (tt, s'') /\
    prompt_top s'' = prompt_top s /\
    (forall x, In x ps -> heap s'' !! x = None) /\
    (forall x, ~ In x ps -> heap s'' !! x = heap s !! x).
Proof.
  induction ps as [|x rest IH]; intros fuel q s Hc Hlen; (destruct fuel as [|n]; [simpl in Hlen; lia|]).
  - inversion Hc; subst. exists s. simpl. repeat split; tauto.
  - pose proof (chain_nodup _ _ _ Hc) as Hnd. inversion Hnd as [|? ? Hxr _]; subst.
    rewrite list_elem_of_In in Hxr.
    inversion Hc as [|q' pr rest' Hq Hl Hc']; subst.
    simpl. rewrite (proj2 (Z.eqb_neq _ _) Hq).
    unfold sbind, load, emit, mmodify. rewrite Hl. simpl.
    destruct (parent pr =? null) eqn:Hpn.
    + apply Z.eqb_eq in Hpn. rewrite Hpn in Hc'. inversion Hc'; subst.
      2:{ match goal with H : null <> null |- _ => now destruct H end. }
      destruct n as [|n]; [simpl in Hlen; lia|].
      rewrite Hpn. simpl. eexists. split; [reflexivity|]. simpl. split; [reflexivity|]. split.
      * intros y [<-|[]]. apply lookup_delete_eq.
      * intros y Hy. apply lookup_delete_ne. intros ->. simpl in Hy. tauto.
    + apply Z.eqb_neq in Hpn. simpl.
      inversion Hc' as [|q2 prp rest2 Hq2 Hlp Hc2]; [congruence|]. subst.
      assert (Hxp : x <> parent pr) by (intros Heq; apply Hxr; rewrite Heq; left; reflexivity).
      unfold modify_prompt. simpl. rewrite lookup_delete_ne by exact Hxp. rewrite Hlp. simpl.
      set (s3 := set_heap (<[parent pr := set_refcount (refcount prp - 1) prp]> (delete x (heap s)))
                   (set_heap (delete x (heap s)) (add_event (EvGstackFree (gstack pr) d) s))).
      assert (Hc3 : chain (heap s3) (parent pr) (parent pr :: rest2)).
      { apply (chain_mono (heap s)); [exact Hc'|].
        intros y pry Hy Hly. simpl. destruct (decide (y = parent pr)) as [->|Hne].
        - rewrite lookup_insert_eq. rewrite Hlp in Hly. injection Hly as <-. eauto.
        - rewrite lookup_insert_ne by congruence. rewrite lookup_delete_ne.
          + eauto.
          + intros ->. contradiction. }
      simpl in Hlen.
      destruct (IH n (parent pr) s3 Hc3 ltac:(simpl; lia)) as (s'' & Hrun & Htop & Hin & Hout).
      exists s''. split; [exact Hrun|]. split; [exact Htop|]. split.
      * intros y [<-|Hy]; [|auto]. rewrite Hout by exact Hxr. simpl.
        rewrite lookup_insert_ne by congruence. apply lookup_delete_eq.
      * intros y Hy. rewrite Hout by tauto. simpl.
        rewrite lookup_insert_ne by (intros Heq; apply Hy; right; rewrite <- Heq; left; reflexivity).
        apply lookup_delete_ne. intros ->. tauto.
Qed.

Lemma inv_ext s s' :
  heap s' = heap s -> prompt_top s' = prompt_top s -> prompt_chain_inv s -> prompt_chain_inv s'.
Proof.
  intros Hh Ht [Hc Hk]. unfold prompt_chain_inv, current_chain_ok. rewrite Hh, Ht. split; assumption.
Qed.

(** Removing the captured chain of a suspended prompt keeps the chain
    invariant: no other chain shares a prompt with it. *)
Lemma remove_captured_preserves_inv s s' p pr seg :
  prompt_chain_inv s -> heap s !! p = Some pr -> top pr <> null ->
  chain (heap s) (top pr) seg -> last seg = Some p ->
  prompt_top s' = prompt_top s ->
  (forall x, In x seg -> heap s' !! x = None) ->
  (forall x, ~ In x seg -> heap s' !! x = heap s !! x) ->
  prompt_chain_inv s'.
Proof.
  intros [(cur & Hcur & Htcur) Hcap] Hp Htop Hseg Hlast Ht Hin Hout.
  assert (Hmono : forall q ps, chain (heap s) q ps -> (forall x, In x ps -> ~ In x seg) ->
                  chain (heap s') q ps).
  { intros q ps Hc Hdis. apply (chain_mono (heap s)); [exact Hc|].
    intros x prx Hx Hlx. exists prx. rewrite Hout by auto. auto. }
  assert (Htops : forall q, ~ In q seg -> top_of (heap s') q = top_of (heap s) q).
  { intros q Hq. unfold top_of. rewrite Hout by exact Hq. reflexivity. }
  assert (Hdcur : forall x, In x cur -> ~ In x seg).
  { intros x Hx Hs. pose proof (chain_last_common _ _ _ _ _ _ Hcur Hseg Hx Hs) as Hl.
    rewrite Hlast in Hl. apply last_In in Hl. specialize (Htcur p Hl).
    rewrite (top_of_Some _ _ _ Hp) in Htcur. contradiction. }
  split.
  - exists cur. rewrite Ht. split; [auto|]. intros q Hq. rewrite Htops by auto. auto.
  - intros p' pr'' Hl' Ht'.
    assert (Hp'seg : ~ In p' seg) by (intros Hs; rewrite (Hin p' Hs) in Hl'; discriminate).
    rewrite Hout in Hl' by exact Hp'seg.
    destruct (Hcap p' pr'' Hl' Ht') as (seg' & Hseg' & Hlast' & Htseg').
    assert (Hdis : forall x, In x seg' -> ~ In x seg).
    { intros x Hx Hs. pose proof (chain_last_common _ _ _ _ _ _ Hseg' Hseg Hx Hs) as Hl.
      rewrite Hlast, Hlast' in Hl. injection Hl as ->. apply Hp'seg. apply last_In. exact Hlast. }
    exists seg'. split; [auto|]. split; [exact Hlast'|].
    intros q Hq Hqne. rewrite Htops by auto. auto.
Qed.

(** [mp_prompt_free] keeps the chain invariant. *)
Lemma free_preserves_inv s p d s' pr :
  prompt_chain_inv s -> heap s !! p = Some pr ->
  mp_prompt_free p d s = Some (tt, s') -> prompt_chain_inv s'.
Proof.
  intros Hinv Hp Hrun. unfold mp_prompt_free, sbind, load, mget in Hrun. rewrite Hp in Hrun.
  destruct (decide (top pr = null)) as [Hnull|Htop].
  - rewrite Hnull in Hrun.
    destruct (free_loop_spec d [] (S (map_size (heap s))) null s (chain_nil _) ltac:(simpl; lia))
      as (s'' & Hr & Ht & _ & Hout).
    rewrite Hr in Hrun. injection Hrun as <-.
    apply (inv_ext s); [|exact Ht|exact Hinv].
    apply map_eq. intros x. apply Hout. simpl. tauto.
  - pose proof Hinv as [_ Hcap].
    destruct (Hcap p pr Hp Htop) as (seg & Hseg & Hlast & _).
    pose proof (chain_length_le _ _ _ Hseg) as Hle.
    destruct (free_loop_spec d seg (S (map_size (heap s))) (top pr) s Hseg ltac:(lia))
      as (s'' & Hr & Ht & Hin & Hout).
    rewrite Hr in Hrun. injection Hrun as <-.
    exact (remove_captured_preserves_inv s s'' p pr seg Hinv Hp Htop Hseg Hlast Ht Hin Hout).
Qed.

(** [mp_prompt_drop_internal] keeps the chain invariant. *)
Lemma drop_preserves_inv s p d s' pr :
  prompt_chain_inv s -> heap s !! p = Some pr ->
  mp_prompt_drop_internal p d s = Some (tt, s') -> prompt_chain_inv s'.
Proof.
  intros Hinv Hp Hrun.
  unfold mp_prompt_drop_internal, sbind, load, modify_prompt in Hrun. rewrite Hp in Hrun.
  rewrite Hp in Hrun.
  pose proof (same_links_preserves_inv s p pr (set_refcount (refcount pr - 1) pr) Hinv Hp
                eq_refl eq_refl) as Hinv1.
  destruct (refcount pr <=? 1).
  - eapply free_preserves_inv; [exact Hinv1 | | exact Hrun].
    simpl. apply lookup_insert_eq.
  - unfold mpure in Hrun. injection Hrun as <-. exact Hinv1.
Qed.

(** ** C1 *)

(** C1 (amended): [mp_prompt_is_active] is [top == NULL].  Every prompt on
    the current chain (walking [parent] from [_mp_prompt_top]) has
    [top == NULL]; every suspended prompt [p] ([top != NULL]) roots a
    captured chain that runs from [p->top] to [p], whose other prompts also
    have [top == NULL] although they are off the current chain.  Create,
    link of a suspended prompt, unlink of an ancestor of the top, free and
    drop preserve this. *)
Theorem prompt_chain_inv_preserved s o x s' :
  prompt_chain_inv s -> chain_op_pre s o -> run_chain_op o s = Some (x, s') ->
  prompt_chain_inv s'.
Proof.
  intros Hinv Hpre Hrun. destruct o as [fn a|p ret|p res|p d|p d]; simpl in Hpre, Hrun.
  - rewrite create_eq in Hrun. injection Hrun as _ <-.
    destruct Hpre as [Hnn Hfresh]. apply create_preserves_inv; assumption.
  - destruct Hpre as (pr & Hp & Htop). rewrite (link_eq _ _ _ _ Hp) in Hrun.
    injection Hrun as _ <-. apply link_preserves_inv; assumption.
  - pose proof Hinv as [(cur & Hcur & _) _].
    pose proof (ancestor_in_current _ _ _ Hpre Hcur) as Hin.
    destruct (chain_elem _ _ _ _ Hcur Hin) as [_ [pr Hp]].
    rewrite (unlink_eq _ _ _ _ Hp) in Hrun. injection Hrun as _ <-.
    apply unlink_preserves_inv; assumption.
  - destruct Hpre as [pr Hp]. unfold sbind in Hrun.
    destruct (mp_prompt_free p d s) as [[[] s1]|] eqn:Hf; [|discriminate].
    unfold mpure in Hrun. injection Hrun as _ <-. eapply free_preserves_inv; eauto.
  - destruct Hpre as [pr Hp]. unfold sbind in Hrun.
    destruct (mp_prompt_drop_internal p d s) as [[[] s1]|] eqn:Hf; [|discriminate].
    unfold mpure in Hrun. injection Hrun as _ <-. eapply drop_preserves_inv; eauto.
Qed.

Lemma nested_state_heap :
  heap nested_state =
    <[40 := mkPrompt 24 0 1 40 48 0 100 0 0]>
    (<[24 := mkPrompt 0 40 1 24 32 56 100 0 0]>
    (<[8 := mkPrompt 0 0 1 8 16 0 100 0 0]> ∅)).
Proof. vm_compute. reflexivity. Qed.

Ltac chain_tac := vm_compute; repeat (econstructor; [discriminate | reflexivity |]); constructor.

(** In [nested_state] the current chain is R; A is suspended and roots the
    captured chain B -> A. *)
Lemma nested_state_inv : prompt_chain_inv nested_state.
Proof.
  split.
  - exists [8]. split; [chain_tac|]. intros q [<-|[]]. vm_compute. reflexivity.
  - intros p pr Hl Htop.
    destruct (decide (p = 24)) as [->|H24].
    + vm_compute in Hl. injection Hl as <-. exists [40; 24].
      split; [chain_tac|]. split; [reflexivity|].
      intros q [<-|[<-|[]]] Hq; [vm_compute; reflexivity | congruence].
    + exfalso. rewrite nested_state_heap in Hl.
      rewrite lookup_insert_Some in Hl. destruct Hl as [[_ <-]|[_ Hl]]; [apply Htop; reflexivity|].
      rewrite lookup_insert_ne in Hl by congruence.
      rewrite lookup_insert_Some in Hl. destruct Hl as [[_ <-]|[_ Hl]]; [apply Htop; reflexivity|].
      rewrite lookup_empty in Hl. discriminate.
Qed.

(** From [nested_state]: linking A (24) makes the captured chain B -> A
    current on top of R; unlinking A again captures B -> A; dropping A
    instead frees B and A. *)
Lemma prompt_chain_inv_preserved_witness :
  let s1 := run_chain_state (OpLink 24 72) nested_state in
  let s2 := run_chain_state (OpUnlink 24 80) s1 in
  let s3 := run_chain_state (OpDrop 24 false) nested_state in
  prompt_chain_inv s1 /\ prompt_chain_inv s2 /\ prompt_chain_inv s3 /\
  prompt_top s1 = 40 /\ mp_prompt_is_ancestor 8 s1 = Some (true, s1) /\
  top_of (heap s2) 24 = 40 /\ prompt_top s2 = 8 /\
  heap s3 !! 24 = None /\ heap s3 !! 40 = None.
Proof.
  intros s1 s2 s3.
  assert (H1 : prompt_chain_inv s1).
  { apply (prompt_chain_inv_preserved nested_state (OpLink 24 72) 56).
    - exact nested_state_inv.
    - simpl. eexists. split; [vm_compute; reflexivity | vm_compute; discriminate].
    - vm_compute. reflexivity. }
  split; [exact H1|]. split.
  { apply (prompt_chain_inv_preserved s1 (OpUnlink 24 80) 72).
    - exact H1.
    - simpl. vm_compute. reflexivity.
    - vm_compute. reflexivity. }
  split.
  { apply (prompt_chain_inv_preserved nested_state (OpDrop 24 false) 0).
    - exact nested_state_inv.
    - simpl. eexists. vm_compute. reflexivity.
    - vm_compute. reflexivity. }
  vm_compute. repeat split.
Defined.

(** C1 (counterexample): after prompts R, A, B are entered and B yields to
    A, prompt B has [top == NULL] (active) but is not an ancestor of the
    current top, while R is active and on the current chain: the prompts
    with [top == NULL] do not form a single chain. *)
Lemma active_prompts_not_one_chain :
  match nested_yield init_st with
  | Some ((pR, _, pB), s) =>
      mp_prompt_is_active pB s = Some (true, s) /\
      mp_prompt_is_ancestor pB s = Some (false, s) /\
      mp_prompt_is_active pR s = Some (true, s) /\
      mp_prompt_is_ancestor pR s = Some (true, s)
  | None => False
  end.
Proof. vm_compute. repeat split. Qed.

(** ** C3 *)

(** C3: [mp_prompt_unlink p res] sets [p->top] to the current top, the
    current top to [p->parent], [p->parent] to NULL and [p->resume_point]
    to [res], leaves [p->return_point] (and the other fields) unchanged, and
    returns the stored [p->return_point]. *)
Theorem mp_prompt_unlink_spec s p res pr :
  heap s !! p = Some pr ->
  exists s',
    mp_prompt_unlink p res s = Some (return_point pr, s') /\
    prompt_top s' = parent pr /\
    (exists pr', heap s' !! p = Some pr' /\
       top pr' = prompt_top s /\ parent pr' = null /\ resume_point pr' = res /\
       return_point pr' = return_point pr /\ refcount pr' = refcount pr /\
       gstack pr' = gstack pr /\ start_fun pr' = start_fun pr /\
       start_arg pr' = start_arg pr /\ unwind_frame pr' = unwind_frame pr) /\
    (forall q, q <> p -> heap s' !! q = heap s !! q) /\
    events s' = events s /\ mres s' = mres s.
Proof.
  intros Hp. eexists. split; [apply unlink_eq; exact Hp|]. simpl.
  split; [reflexivity|]. split.
  - eexists. split; [apply lookup_insert_eq|]. simpl. repeat split.
  - split; [|split; reflexivity]. intros q Hq. apply lookup_insert_ne. congruence.
Qed.

Lemma mp_prompt_unlink_spec_witness :
  exists pr s', heap nested_state !! 40 = Some pr /\
    mp_prompt_unlink 40 0 nested_state = Some (return_point pr, s') /\
    prompt_top s' = parent pr.
Proof.
  destruct (mp_prompt_unlink_spec nested_state 40 0 _ ltac:(vm_compute; reflexivity))
    as (s' & Hrun & Htop & _).
  do 2 eexists. split; [vm_compute; reflexivity|]. split; [exact Hrun | exact Htop].
Defined.

(** ** C4 *)

(** C4: for a suspended prompt [p], [mp_prompt_link p ret] followed by
    [mp_prompt_unlink p res] restores [_mp_prompt_top] and leaves [p]
    suspended with the same [top] as before the link (and a NULL
    [parent]). *)
Theorem link_unlink_restores s p ret res pr :
  heap s !! p = Some pr -> top pr <> null ->
  exists r1 s1 r2 s2,
    mp_prompt_link p ret s = Some (r1, s1) /\
    mp_prompt_unlink p res s1 = Some (r2, s2) /\
    prompt_top s2 = prompt_top s /\
    (exists pr2, heap s2 !! p = Some pr2 /\ top pr2 = top pr /\ top pr2 <> null /\
                 parent pr2 = null) /\
    (forall q, q <> p -> heap s2 !! q = heap s !! q).
Proof.
  intros Hp Htop.
  set (s1 := mkSt (<[p := link_result pr (prompt_top s) ret]> (heap s)) (top pr) (mres s)
                  (events s ++ (if ret =? null then [] else [EvUnwindFrameUpdate (unwind_frame pr) ret]))
                  (next_alloc s) (jmp_sp s)).
  assert (Hp1 : heap s1 !! p = Some (link_result pr (prompt_top s) ret)) by apply lookup_insert_eq.
  do 4 eexists. split; [apply link_eq; exact Hp|]. split; [apply unlink_eq; exact Hp1|].
  simpl. split; [reflexivity|]. split.
  - eexists. split; [apply lookup_insert_eq|]. simpl. repeat split. exact Htop.
  - intros q Hq. rewrite !lookup_insert_ne by congruence. reflexivity.
Qed.

Lemma link_unlink_restores_witness :
  exists r1 s1 r2 s2,
    mp_prompt_link 24 72 nested_state = Some (r1, s1) /\
    mp_prompt_unlink 24 80 s1 = Some (r2, s2) /\ prompt_top s2 = prompt_top nested_state.
Proof.
  destruct (link_unlink_restores nested_state 24 72 80 _ ltac:(vm_compute; reflexivity)
              ltac:(vm_compute; discriminate))
    as (r1 & s1 & r2 & s2 & H1 & H2 & H3 & _).
  exists r1, s1, r2, s2. split; [exact H1|]. split; [exact H2 | exact H3].
Defined.

(** The do-while loop of [mp_prompt_save] walks a chain [seg] from its
    start, pushing each prompt's node on the front and dup'ing it. *)
Lemma save_loop_spec fuel q seg sp acc s :
  chain (heap s) q seg -> seg <> [] -> (length seg < fuel)%nat ->
  (forall x prx, In x seg -> heap s !! x = Some prx -> parent prx <> null ->
                 return_point prx <> null) ->
  exists sv h',
    mp_prompt_save_loop fuel q sp acc s =
      Some (sv, mkSt h' (prompt_top s) (mres s) (events s) (next_alloc s) (jmp_sp s)) /\
    map sv_prompt sv = rev seg ++ map sv_prompt acc /\
    (forall x, h' !! x = if in_dec Z.eq_dec x seg then inc_refcount <$> heap s !! x
                         else heap s !! x).
Proof.
  revert fuel q sp acc s.
  induction seg as [|x ps IH]; intros fuel q sp acc s Hc Hne Hf Hrp; [congruence|].
  pose proof (chain_nodup _ _ _ Hc) as Hnd. apply NoDup_cons in Hnd as [Hxn _].
  rewrite list_elem_of_In in Hxn.
  inversion Hc as [|q' pr ps' Hq Hl Hc']; subst.
  destruct fuel as [|n]; [simpl in Hf; lia|].
  cbn [mp_prompt_save_loop]. unfold mp_prompt_dup. mrun.
  destruct (parent pr =? null) eqn:Hpn.
  - apply Z.eqb_eq in Hpn. rewrite Hpn in Hc'. inversion Hc'; subst; [|congruence].
    simpl. do 2 eexists. split; [reflexivity|]. split; [reflexivity|].
    intros y. destruct (Z.eq_dec y x) as [->|Hyx].
    + rewrite lookup_insert_eq, Hl. simpl. destruct (Z.eq_dec x x); [reflexivity|congruence].
    + rewrite lookup_insert_ne by congruence.
      simpl. destruct (Z.eq_dec x y); [congruence|reflexivity].
  - apply Z.eqb_neq in Hpn. unfold read_reg_sp.
    assert (Hr : return_point pr <> null) by (apply (Hrp x pr); simpl; auto).
    apply Z.eqb_neq in Hr. rewrite Hr.
    set (s1 := set_heap (<[x:=set_refcount (refcount pr + 1) pr]> (heap s)) s).
    assert (Hps : ps <> []) by (inversion Hc'; congruence).
    destruct (IH n (parent pr) (jmp_sp s1 (return_point pr))
                 ({| sv_prompt := x; sv_gsave := {| gs_gstack := gstack pr; gs_sp := sp |} |} :: acc)
                 s1) as (sv & h' & Hrun & Hmap & Hh).
    + apply chain_insert_notin; assumption.
    + exact Hps.
    + simpl in Hf. lia.
    + intros y pry Hy Hly. apply (Hrp y pry); [simpl; auto|].
      simpl in Hly. rewrite lookup_insert_ne in Hly by congruence. exact Hly.
    + exists sv, h'. split; [exact Hrun|]. split.
      * rewrite Hmap. simpl. rewrite <- app_assoc. reflexivity.
      * intros y. rewrite Hh. simpl. destruct (Z.eq_dec x y) as [->|Hxy].
        -- destruct (in_dec Z.eq_dec y ps); [contradiction|].
           rewrite lookup_insert_eq, Hl. reflexivity.
        -- rewrite lookup_insert_ne by congruence.
           destruct (in_dec Z.eq_dec y ps); reflexivity.
Qed.

Lemma restore_loop_eq save s :
  mp_prompt_restore_loop save s =
  Some (tt, add_events (map (fun sv => EvGsaveRestore (sv_gsave sv)) save) s).
Proof.
  revert s. induction save as [|sv save IH]; intros s; simpl.
  - destruct s; unfold add_events; simpl. rewrite app_nil_r. reflexivity.
  - unfold sbind, emit, mmodify, mget, mpure. simpl. rewrite IH.
    unfold add_events, add_event. simpl. rewrite <- app_assoc. reflexivity.
Qed.

Lemma hd_error_rev_last (l : list ptr) : hd_error (rev l) = last l.
Proof.
  induction l as [|y l' _] using rev_ind; [reflexivity|].
  rewrite rev_unit, last_snoc. reflexivity.
Qed.

Lemma last_rev_cons (y : ptr) l : last (rev (y :: l)) = Some y.
Proof. simpl. apply last_snoc. Qed.

(** ** C5 *)

(** C5 (amended): for a suspended prompt [p] whose captured chain runs
    from [p->top] up to [p], [mp_prompt_save p] returns the nodes in
    parent-to-child order: the head holds [p] itself (the root of the
    captured chain, as [mp_prompt_restore] asserts) and the last node holds
    the deepest child [p->top]; every prompt of the chain gets one
    reference more (the other prompts are unchanged); and
    [mp_prompt_restore] restores the snapshots in list order, root first. *)
Theorem mp_prompt_save_restore_order s p pr seg :
  heap s !! p = Some pr -> resume_point pr <> null ->
  chain (heap s) (top pr) seg -> last seg = Some p ->
  (forall x prx, In x seg -> heap s !! x = Some prx -> parent prx <> null ->
                 return_point prx <> null) ->
  exists sv s',
    mp_prompt_save p s = Some (sv, s') /\
    map sv_prompt sv = rev seg /\
    hd_error (map sv_prompt sv) = Some p /\
    last (map sv_prompt sv) = Some (top pr) /\
    (forall x, heap s' !! x = if in_dec Z.eq_dec x seg then inc_refcount <$> heap s !! x
                              else heap s !! x) /\
    mp_prompt_restore p sv s' =
      Some (tt, add_events (map (fun v => EvGsaveRestore (sv_gsave v)) sv) s').
Proof.
  intros Hp Hres Hc Hlast Hrp.
  assert (Hne : seg <> []) by (intros ->; discriminate).
  destruct (save_loop_spec (S (map_size (heap s))) (top pr) seg
              (jmp_sp s (resume_point pr)) [] s Hc Hne) as (sv & h' & Hrun & Hmap & Hh).
  { pose proof (chain_length_le _ _ _ Hc). lia. }
  { exact Hrp. }
  exists sv, (mkSt h' (prompt_top s) (mres s) (events s) (next_alloc s) (jmp_sp s)).
  rewrite app_nil_r in Hmap.
  split; [|split; [exact Hmap|]].
  { unfold mp_prompt_save. mrun. unfold read_reg_sp.
    apply Z.eqb_neq in Hres. rewrite Hres. exact Hrun. }
  split; [rewrite Hmap, hd_error_rev_last; exact Hlast|].
  split.
  { rewrite Hmap. clear - Hc Hne. revert Hne.
    destruct Hc as [|q prq ps Hq Hl Hc']; [congruence|]. intros _. apply last_rev_cons. }
  split; [exact Hh|].
  destruct sv as [|sv0 svs]; [simpl in Hmap; destruct seg; [congruence|];
                              simpl in Hmap; destruct (rev seg); discriminate|].
  unfold mp_prompt_restore. apply restore_loop_eq.
Qed.

Lemma mp_prompt_save_restore_order_witness :
  exists sv s', mp_prompt_save 24 nested_state = Some (sv, s') /\ map sv_prompt sv = [24; 40].
Proof.
  destruct (mp_prompt_save_restore_order nested_state 24 _ [40; 24]
              ltac:(vm_compute; reflexivity) ltac:(vm_compute; discriminate)
              ltac:(vm_compute; repeat (econstructor; [discriminate | reflexivity |]); constructor)
              ltac:(reflexivity)
              ltac:(intros x prx Hx Hl Hpn; simpl in Hx; destruct Hx as [<-|[<-|[]]];
                    vm_compute in Hl; injection Hl as <-; vm_compute in *; congruence))
    as (sv & s' & Hrun & Hmap & _).
  exists sv, s'. split; [exact Hrun|]. rewrite Hmap. reflexivity.
Defined.

(** C5 (counterexample): in [nested_yield], prompt A (24) is suspended with
    the captured chain B (40) -> A; its deepest child is B, but the save
    list of A starts with A, and restoring it restores A's stack first. *)
Lemma save_list_root_first :
  top_of (heap nested_state) 24 = 40 /\
  match mp_prompt_save 24 nested_state with
  | Some (sv, s') =>
      map sv_prompt sv = [24; 40] /\
      option_map (fun r => drop (length (events s')) (events (snd r)))
                 (mp_prompt_restore 24 sv s') =
        Some (map (fun v => EvGsaveRestore (sv_gsave v)) sv) /\
      map (fun v => gs_gstack (sv_gsave v)) sv = [24; 40]
  | None => False
  end.
Proof. vm_compute. repeat split. Qed.


Lemma save_loop_mres fuel p sp acc s v s' :
  mp_prompt_save_loop fuel p sp acc s = Some (v, s') -> mres s' = mres s.
Proof.
  revert p sp acc s. induction fuel as [|n IH]; intros p sp acc s H; [discriminate|].
  cbn [mp_prompt_save_loop] in H.
  unfold mp_prompt_dup, modify_prompt, load, sbind, mmodify, mpure, mget, read_reg_sp in H.
  repeat case_match; simplify_eq; try reflexivity.
  all: apply IH in H; exact H.
Qed.

Lemma save_mres p s v s' : mp_prompt_save p s = Some (v, s') -> mres s' = mres s.
Proof.
  unfold mp_prompt_save, load, sbind, mget, read_reg_sp. intros H.
  repeat case_match; simplify_eq. eapply save_loop_mres; eassumption.
Qed.

Lemma sbind_ret {A B} (m : M A) (k : A -> M B) s a s' :
  m s = Some (a, s') -> sbind m k s = k a s'.
Proof. intros H. unfold sbind. rewrite H. reflexivity. Qed.

Lemma modify_mres_eq r f s m :
  mres s !! r = Some m ->
  modify_mres r f s = Some (tt, set_mres (<[r := f m]> (mres s)) s).
Proof. intros H. unfold modify_mres, sbind, load_mres, store_mres. rewrite H. simpl. rewrite H. reflexivity. Qed.

(** ** C6 *)

(** C6: the prepare step [mp_resume_get_prompt r] takes exactly one of
    three actions, tested in this order: if [r->save] is non-empty it
    restores the saved snapshots; else if [r->refcount > 1] or
    [r->prompt->refcount > 1] it stores the snapshot [mp_prompt_save] takes
    of the whole suspended chain in [r->save]; else it does nothing.  In
    each case it then continues with [get_prompt_tail]: it dups the prompt,
    drops [r] and returns the prompt. *)
Theorem mp_resume_get_prompt_cases s r m :
  mres s !! r = Some m ->
  (mr_save m <> [] ->
     mp_resume_get_prompt r s =
     get_prompt_tail r (mr_prompt m)
       (add_events (map (fun v => EvGsaveRestore (sv_gsave v)) (mr_save m)) s)) /\
  (mr_save m = [] ->
     (1 < mr_refcount m \/ exists pr, heap s !! mr_prompt m = Some pr /\ 1 < refcount pr) ->
     forall sv s1, mp_prompt_save (mr_prompt m) s = Some (sv, s1) ->
     mp_resume_get_prompt r s =
     get_prompt_tail r (mr_prompt m) (set_mres (<[r := set_mr_save sv m]> (mres s1)) s1)) /\
  (mr_save m = [] -> mr_refcount m <= 1 ->
     (exists pr, heap s !! mr_prompt m = Some pr /\ refcount pr <= 1) ->
     mp_resume_get_prompt r s = get_prompt_tail r (mr_prompt m) s).
Proof.
  intros Hm. split; [|split].
  - intros Hne. unfold mp_resume_get_prompt. unfold sbind at 1. unfold load_mres. rewrite Hm.
    destruct (mr_save m) as [|sv0 svs] eqn:E; [congruence|].
    unfold sbind at 1. unfold mp_prompt_restore. rewrite restore_loop_eq. reflexivity.
  - intros Hnil Hc sv s1 Hs. unfold mp_resume_get_prompt. unfold sbind at 1. unfold load_mres. rewrite Hm.
    rewrite Hnil.
    assert (Hc' : (if 1 <? mr_refcount m then mpure true
                   else pr <- load (mr_prompt m) ;; mpure (1 <? refcount pr)) s = Some (true, s)).
    { destruct Hc as [Hc|(pr & Hl & Hc)].
      - apply Z.ltb_lt in Hc. rewrite Hc. reflexivity.
      - destruct (1 <? mr_refcount m); [reflexivity|].
        unfold sbind, load, mpure. rewrite Hl. apply Z.ltb_lt in Hc. rewrite Hc. reflexivity. }
    unfold sbind at 1. rewrite (sbind_ret _ _ _ _ _ Hc'). cbv beta iota.
    rewrite (sbind_ret _ _ _ _ _ Hs).
    rewrite (modify_mres_eq _ _ _ m) by (rewrite (save_mres _ _ _ _ Hs); exact Hm).
    reflexivity.
  - intros Hnil Hrc (pr & Hl & Hpr). unfold mp_resume_get_prompt. unfold sbind at 1. unfold load_mres. rewrite Hm.
    rewrite Hnil.
    assert (Hc' : (if 1 <? mr_refcount m then mpure true
                   else pr <- load (mr_prompt m) ;; mpure (1 <? refcount pr)) s = Some (false, s)).
    { assert (E : (1 <? mr_refcount m) = false) by (apply Z.ltb_ge; lia). rewrite E.
      unfold sbind, load, mpure. rewrite Hl.
      assert (E' : (1 <? refcount pr) = false) by (apply Z.ltb_ge; lia). rewrite E'. reflexivity. }
    unfold sbind at 1. rewrite (sbind_ret _ _ _ _ _ Hc'). reflexivity.
Qed.

Lemma mp_resume_get_prompt_cases_witness :
  exists m, mres multi_state !! 64 = Some m /\
    mp_resume_get_prompt 64 multi_state = get_prompt_tail 64 (mr_prompt m) multi_state.
Proof.
  destruct (mp_resume_get_prompt_cases multi_state 64 _ ltac:(vm_compute; reflexivity))
    as (_ & _ & H3).
  eexists. split; [vm_compute; reflexivity|].
  apply H3; [vm_compute; reflexivity | vm_compute; congruence |].
  eexists. split; [vm_compute; reflexivity | vm_compute; congruence].
Defined.

(** ** C7 *)

Lemma resume_multi_decode r :
  Z.land r 4 = 0 ->
  mp_resume_is_multi (mp_resume_multi r) = r /\ mp_resume_is_once (mp_resume_multi r) = null.
Proof.
  intros Hr.
  assert (Hb : Z.testbit r 2 = false).
  { pose proof (f_equal (fun z => Z.testbit z 2) Hr) as H. cbv beta in H.
    rewrite Z.land_spec in H. change (Z.testbit 4 2) with true in H.
    change (Z.testbit 0 2) with false in H. rewrite andb_true_r in H. exact H. }
  assert (H4 : Z.land (Z.lor r 4) 4 = 4).
  { apply Z.bits_inj'. intros n Hn. rewrite Z.land_spec, Z.lor_spec.
    destruct (Z.testbit r n), (Z.testbit 4 n); reflexivity. }
  unfold mp_resume_is_multi, mp_resume_is_once, mp_resume_multi. rewrite H4. simpl.
  split; [|reflexivity].
  apply Z.bits_inj'. intros n Hn. rewrite Z.lxor_spec, Z.lor_spec.
  change 4 with (2 ^ 2). destruct (Z.eq_dec n 2) as [->|Hne].
  - rewrite Z.pow2_bits_true by lia. rewrite Hb. reflexivity.
  - rewrite Z.pow2_bits_false by congruence. destruct (Z.testbit r n); reflexivity.
Qed.

(** C7: when the transfer arriving at the receiver has kind
    [MP_YIELD_MULTI], [mp_prompt_exec_yield_fun] allocates a fresh
    multi-shot record [{prompt = p, refcount = 1, resume_count = 0,
    save = NULL, tail_return_point = p->return_point}] (the value at that
    moment) and calls [ret->fun] with the tagged handle of the record and
    [ret->arg], returning that call's value; the prompts are unchanged, and
    the handle is a multi-shot handle that decodes back to the record. *)
Theorem exec_yield_fun_multi ret p pr s :
  rp_kind ret = MP_YIELD_MULTI -> heap s !! p = Some pr ->
  mp_prompt_exec_yield_fun ret p s =
    Some (OCall (rp_fun ret) (mp_resume_multi (next_alloc s)) (rp_arg ret),
          mkSt (heap s) (prompt_top s)
               (<[next_alloc s := mkMresume 1 0 p [] (return_point pr)]> (mres s))
               (events s) (next_alloc s + 8) (jmp_sp s)) /\
  (Z.land (next_alloc s) 4 = 0 ->
     mp_resume_is_multi (mp_resume_multi (next_alloc s)) = next_alloc s /\
     mp_resume_is_once (mp_resume_multi (next_alloc s)) = null).
Proof.
  intros Hk Hp. split; [|apply resume_multi_decode].
  unfold mp_prompt_exec_yield_fun. rewrite Hk.
  unfold alloc, sbind, load, mmodify, mpure, mget. simpl. rewrite Hp. reflexivity.
Qed.

Lemma exec_yield_fun_multi_witness :
  exists s', mp_prompt_exec_yield_fun (mkReturnPoint MP_YIELD_MULTI 200 0) 24 nested_state
             = Some (OCall 200 (mp_resume_multi (next_alloc nested_state)) 0, s').
Proof.
  destruct (exec_yield_fun_multi (mkReturnPoint MP_YIELD_MULTI 200 0) 24 _ nested_state
              eq_refl ltac:(vm_compute; reflexivity)) as [H _].
  eexists. exact H.
Defined.

(** ** C8 *)

Lemma resume_tail_link p arg ret s pr :
  heap s !! p = Some pr -> resume_point pr <> null ->
  exists s', mp_prompt_resume_tail p arg ret s = Some (TResume (resume_point pr) arg, s') /\
             heap s' !! p = Some (link_result pr (prompt_top s) ret).
Proof.
  intros Hp Hres. unfold mp_prompt_resume_tail. unfold sbind at 1.
  rewrite (link_eq _ _ _ _ Hp). apply Z.eqb_neq in Hres. rewrite Hres.
  eexists. split; [reflexivity|]. simpl. apply lookup_insert_eq.
Qed.

(** C8: [mp_mresume_tail r arg] falls back to [mp_mresume r arg] when
    [r->tail_return_point] is NULL; otherwise it consumes the tail return
    point (sets it to NULL), counts the resume, obtains the prompt with the
    prepare step [mp_resume_get_prompt] and performs a tail resume
    [mp_prompt_resume_tail] against the saved return point, which becomes
    the prompt's [return_point]. *)
Theorem mp_mresume_tail_spec s r arg m :
  mres s !! r = Some m ->
  (mr_tail_return_point m = null -> mp_mresume_tail r arg s = mp_mresume r arg s) /\
  (mr_tail_return_point m <> null ->
   forall p s2,
     mp_resume_get_prompt r
       (set_mres (<[r := set_mr_resume_count (mr_resume_count m + 1)
                           (set_mr_tail null m)]> (mres s)) s) = Some (p, s2) ->
     mp_mresume_tail r arg s = mp_prompt_resume_tail p arg (mr_tail_return_point m) s2 /\
     (forall pr2, heap s2 !! p = Some pr2 -> resume_point pr2 <> null ->
        exists s3, mp_mresume_tail r arg s = Some (TResume (resume_point pr2) arg, s3) /\
                   heap s3 !! p = Some (link_result pr2 (prompt_top s2)
                                                    (mr_tail_return_point m)))).
Proof.
  intros Hm. split.
  - intros Hn. unfold mp_mresume_tail, sbind at 1, load_mres. rewrite Hm.
    cbv beta zeta. rewrite Hn. reflexivity.
  - intros Hn p s2 Hg.
    assert (Heq : mp_mresume_tail r arg s = mp_prompt_resume_tail p arg (mr_tail_return_point m) s2).
    { unfold mp_mresume_tail, sbind at 1, load_mres. rewrite Hm. cbv beta zeta.
      apply Z.eqb_neq in Hn. rewrite Hn.
      rewrite (sbind_ret _ _ _ _ _ (modify_mres_eq _ _ _ _ Hm)).
      rewrite (sbind_ret _ _ _ _ _
                 (modify_mres_eq r (fun m => set_mr_resume_count (mr_resume_count m + 1) m)
                    (set_mres (<[r := set_mr_tail null m]> (mres s)) s) (set_mr_tail null m)
                    ltac:(simpl; apply lookup_insert_eq))).
      simpl. rewrite insert_insert_eq. rewrite (sbind_ret _ _ _ _ _ Hg). reflexivity. }
    split; [exact Heq|].
    intros pr2 Hp2 Hres. rewrite Heq. apply resume_tail_link; assumption.
Qed.

Lemma mp_mresume_tail_spec_witness :
  exists m p s2,
    mres multi_state !! 64 = Some m /\
    mp_resume_get_prompt 64
      (set_mres (<[64 := set_mr_resume_count (mr_resume_count m + 1)
                           (set_mr_tail null m)]> (mres multi_state)) multi_state) = Some (p, s2) /\
    mp_mresume_tail 64 0 multi_state = mp_prompt_resume_tail p 0 (mr_tail_return_point m) s2.
Proof.
  destruct (mp_mresume_tail_spec multi_state 64 0 _ ltac:(vm_compute; reflexivity)) as [_ H2].
  do 3 eexists. split; [vm_compute; reflexivity|]. split; [vm_compute; reflexivity|].
  apply H2; [vm_compute; congruence | vm_compute; reflexivity].
Defined.

(** ** C9 *)

(** C9: for a once handle [h] (bit 2 clear), [mp_resume_dup h] reports
    [EINVAL] through [mp_error_message] and returns NULL; nothing else
    changes, in particular no prompt's refcount. *)
Theorem mp_resume_dup_once h s :
  Z.land h 4 = 0 ->
  mp_resume_dup h s = Some (null, add_event (EvErrorMessage EINVAL) s) /\
  heap (add_event (EvErrorMessage EINVAL) s) = heap s /\
  mres (add_event (EvErrorMessage EINVAL) s) = mres s.
Proof.
  intros Hh. split; [|split; reflexivity].
  unfold mp_resume_dup, mp_resume_is_multi. rewrite Hh. reflexivity.
Qed.

Lemma mp_resume_dup_once_witness :
  mp_resume_dup (mp_resume_once 24) nested_state
  = Some (null, add_event (EvErrorMessage EINVAL) nested_state).
Proof.
  destruct (mp_resume_dup_once (mp_resume_once 24) nested_state ltac:(vm_compute; reflexivity))
    as [H _].
  exact H.
Defined.

(** ** C10 *)

(** C10: for a once handle [h] (bit 2 clear), in every state
    [mp_resume_resume_count h] is 0 and [mp_resume_should_unwind h] is
    false, and neither changes the state. *)
Theorem once_handle_queries h s :
  Z.land h 4 = 0 ->
  mp_resume_resume_count h s = Some (0, s) /\ mp_resume_should_unwind h s = Some (false, s).
Proof.
  intros Hh. unfold mp_resume_resume_count, mp_resume_should_unwind, mp_resume_is_multi.
  rewrite Hh. split; reflexivity.
Qed.

Lemma once_handle_queries_witness :
  mp_resume_resume_count (mp_resume_once 24) nested_state = Some (0, nested_state) /\
  mp_resume_should_unwind (mp_resume_once 24) nested_state = Some (false, nested_state).
Proof.
  exact (once_handle_queries (mp_resume_once 24) nested_state ltac:(vm_compute; reflexivity)).
Defined.


(** * Further properties of the code *)

(** ** Helper lemmas *)

Lemma free_loop_mres fuel p d s s' :
  mp_prompt_free_loop fuel p d s = Some (tt, s') -> mres s' = mres s.
Proof.
  revert p s. induction fuel as [|n IH]; intros p s H; [discriminate|].
  cbn [mp_prompt_free_loop] in H.
  unfold emit, modify_prompt, load, sbind, mmodify, mpure, mget in H.
  repeat case_match; simplify_eq; try reflexivity.
  all: apply IH in H; rewrite H; reflexivity.
Qed.

Lemma free_spec s p d pr seg :
  heap s !! p = Some pr -> chain (heap s) (top pr) seg ->
  exists s', mp_prompt_free p d s = Some (tt, s') /\
    prompt_top s' = prompt_top s /\ mres s' = mres s /\
    (forall x, In x seg -> heap s' !! x = None) /\
    (forall x, ~ In x seg -> heap s' !! x = heap s !! x).
Proof.
  intros Hp Hc.
  destruct (free_loop_spec d seg (S (map_size (heap s))) (top pr) s Hc)
    as (s' & Hrun & Htop & Hin & Hout).
  { pose proof (chain_length_le _ _ _ Hc). lia. }
  exists s'. split; [|split; [exact Htop|split; [eapply free_loop_mres; exact Hrun|split; assumption]]].
  unfold mp_prompt_free, sbind, load, mget. rewrite Hp. exact Hrun.
Qed.

Lemma drop_last_spec s p d pr seg :
  heap s !! p = Some pr -> refcount pr <= 1 ->
  chain (heap s) (top pr) seg -> In p seg ->
  exists s', mp_prompt_drop_internal p d s = Some (tt, s') /\
    prompt_top s' = prompt_top s /\ mres s' = mres s /\
    (forall x, In x seg -> heap s' !! x = None) /\
    (forall x, ~ In x seg -> heap s' !! x = heap s !! x).
Proof.
  intros Hp Hrc Hc Hin.
  set (s1 := set_heap (<[p := set_refcount (refcount pr - 1) pr]> (heap s)) s).
  assert (Hp1 : heap s1 !! p = Some (set_refcount (refcount pr - 1) pr)) by apply lookup_insert_eq.
  assert (Hc1 : chain (heap s1) (top (set_refcount (refcount pr - 1) pr)) seg).
  { apply (chain_mono (heap s)); [exact Hc|]. intros y pry Hy Hly. simpl.
    destruct (decide (y = p)) as [->|Hne].
    - rewrite lookup_insert_eq. rewrite Hp in Hly. injection Hly as <-. eauto.
    - rewrite lookup_insert_ne by congruence. eauto. }
  destruct (free_spec s1 p d _ seg Hp1 Hc1) as (s' & Hrun & Htop & Hm & Hin' & Hout).
  exists s'. split.
  - unfold mp_prompt_drop_internal. mrun.
    assert (E : (refcount pr <=? 1) = true) by (apply Z.leb_le; lia). rewrite E. exact Hrun.
  - split; [exact Htop|]. split; [exact Hm|]. split; [exact Hin'|].
    intros x Hx. rewrite Hout by exact Hx. simpl. apply lookup_insert_ne.
    intros ->. contradiction.
Qed.

Lemma ancestor_loop_spec s p cur : forall fuel q q',
  chain (heap s) q cur -> (length cur < fuel)%nat ->
  mp_prompt_parent q' s = Some (q, s) ->
  exists b, mp_prompt_is_ancestor_loop fuel q' p s = Some (b, s) /\ (b = true <-> In p cur).
Proof.
  induction cur as [|x rest IH]; intros fuel q q' Hc Hf Hq; (destruct fuel as [|n]; [simpl in Hf; lia|]).
  - inversion Hc; subst. exists false. cbn [mp_prompt_is_ancestor_loop].
    unfold sbind. rewrite Hq. simpl. split; [reflexivity|]. simpl. split; [discriminate|tauto].
  - inversion Hc as [|q0 pr rest' Hx Hl Hc']; subst.
    cbn [mp_prompt_is_ancestor_loop]. unfold sbind at 1. rewrite Hq.
    rewrite (proj2 (Z.eqb_neq _ _) Hx).
    destruct (x =? p) eqn:Exp.
    + apply Z.eqb_eq in Exp. subst. exists true. split; [reflexivity|]. simpl. tauto.
    + apply Z.eqb_neq in Exp. simpl in Hf.
      assert (Hpx : mp_prompt_parent x s = Some (parent pr, s)).
      { unfold mp_prompt_parent. rewrite (proj2 (Z.eqb_neq _ _) Hx).
        unfold sbind, load, mpure. rewrite Hl. reflexivity. }
      destruct (IH n (parent pr) x Hc' ltac:(lia) Hpx) as (b & Hrun & Hb).
      exists b. split; [exact Hrun|]. rewrite Hb. simpl. intuition congruence.
Qed.

Lemma mp_prompt_enter_spec c fn arg s :
  0 < next_alloc s -> Z.land (next_alloc s) 4 = 0 ->
  exists s1,
    mp_prompt c fn arg s = Some (TEnter (next_alloc s) (next_alloc s) arg, s1) /\
    prompt_top s1 = next_alloc s /\
    heap s1 !! next_alloc s =
      Some (mkPrompt (prompt_top s) null 1 (next_alloc s) (next_alloc s + 8) null c fn null) /\
    (forall q, q <> next_alloc s -> heap s1 !! q = heap s !! q) /\
    mp_gstack_current s1 = Some (next_alloc s, s1) /\ mres s1 = mres s.
Proof.
  intros Ha Hal.
  set (p := next_alloc s).
  set (s0 := mkSt (<[p := mkPrompt null p 1 p null null c fn null]> (heap s))
                  (prompt_top s) (mres s) (events s) (p + 8) (jmp_sp s)).
  set (sb := set_next_alloc (next_alloc s0 + 8) s0).
  assert (Hpb : heap sb !! p = Some (mkPrompt null p 1 p null null c fn null)) by apply lookup_insert_eq.
  pose proof (link_eq sb p (next_alloc s0) _ Hpb) as Hl.
  assert (Hn : (p =? null) = false) by (apply Z.eqb_neq; unfold p, null; lia).
  assert (Hal' : Z.land p 4 = 0) by exact Hal.
  assert (E8 : (p + 8 =? null) = false) by (apply Z.eqb_neq; unfold p, null; lia).
  eexists. split.
  { unfold mp_prompt. rewrite (sbind_ret _ _ _ _ _ (create_eq s c fn)).
    unfold mp_resume, mp_resume_is_once. fold p. rewrite Hal'. simpl (0 =? 0). cbv iota.
    rewrite Hn.
    unfold mp_prompt_resume, sbind at 1, alloc. cbv beta.
    rewrite (sbind_ret _ _ _ _ _ Hl). simpl. unfold sbind, load, mpure. simpl.
    rewrite lookup_insert_eq. reflexivity. }
  simpl. split; [reflexivity|]. split.
  { rewrite lookup_insert_eq. unfold link_result. simpl. fold p. rewrite E8. reflexivity. }
  split.
  { intros q Hq. rewrite !lookup_insert_ne by congruence. reflexivity. }
  split; [|reflexivity].
  unfold mp_gstack_current, sbind, mp_prompt_top, load, mpure. simpl. fold p. rewrite Hn. simpl.
  rewrite lookup_insert_eq. reflexivity.
Qed.

(** ** Properties *)

(** [mp_prompt_free p] (lines 204-217) walks from [p->top] along the
    [parent] links and removes exactly the prompts it meets (for a suspended
    [p], its captured chain, ending at [p]); every other prompt, the prompt
    top and the multi-shot records are unchanged. *)
Theorem mp_prompt_free_removes_chain s p d pr seg :
  heap s !! p = Some pr -> chain (heap s) (top pr) seg ->
  exists s', mp_prompt_free p d s = Some (tt, s') /\
    prompt_top s' = prompt_top s /\ mres s' = mres s /\
    (forall x, In x seg -> heap s' !! x = None) /\
    (forall x, ~ In x seg -> heap s' !! x = heap s !! x).
Proof. exact (free_spec s p d pr seg). Qed.

Lemma mp_prompt_free_removes_chain_witness :
  exists s', mp_prompt_free 24 false nested_state = Some (tt, s') /\
    heap s' !! 40 = None /\ heap s' !! 24 = None /\ heap s' !! 8 = heap nested_state !! 8.
Proof.
  destruct (mp_prompt_free_removes_chain nested_state 24 false _ [40; 24]
              ltac:(vm_compute; reflexivity) ltac:(vm_compute; repeat (econstructor; [discriminate | reflexivity |]); constructor))
    as (s' & Hrun & _ & _ & Hin & Hout).
  exists s'. split; [exact Hrun|]. split; [apply Hin; simpl; tauto|].
  split; [apply Hin; simpl; tauto|]. apply Hout. simpl. intuition discriminate.
Defined.

(** [mp_prompt_drop_internal p] (lines 220-225) on the last reference
    ([p->refcount <= 1]) of a suspended prompt frees its whole captured
    chain: the prompts from [p->top] up to [p] are removed, all other
    prompts, the prompt top and the multi-shot records are unchanged. *)
Theorem mp_prompt_drop_last_frees s p d pr seg :
  heap s !! p = Some pr -> refcount pr <= 1 ->
  chain (heap s) (top pr) seg -> In p seg ->
  exists s', mp_prompt_drop_internal p d s = Some (tt, s') /\
    prompt_top s' = prompt_top s /\ mres s' = mres s /\
    (forall x, In x seg -> heap s' !! x = None) /\
    (forall x, ~ In x seg -> heap s' !! x = heap s !! x).
Proof. exact (drop_last_spec s p d pr seg). Qed.

Lemma mp_prompt_drop_last_frees_witness :
  exists s', mp_prompt_drop 24 nested_state = Some (tt, s') /\
    heap s' !! 40 = None /\ heap s' !! 24 = None.
Proof.
  destruct (mp_prompt_drop_last_frees nested_state 24 false _ [40; 24]
              ltac:(vm_compute; reflexivity) ltac:(vm_compute; congruence)
              ltac:(vm_compute; repeat (econstructor; [discriminate | reflexivity |]); constructor) ltac:(simpl; tauto))
    as (s' & Hrun & _ & _ & Hin & _).
  exists s'. split; [exact Hrun|]. split; apply Hin; simpl; tauto.
Defined.

(** [mp_prompt_dup] followed by [mp_prompt_drop] (lines 220-241) on a
    prompt holding at least one reference gives back the same state: the
    drop only undoes the increment and frees nothing. *)
Theorem mp_prompt_dup_drop s p pr :
  heap s !! p = Some pr -> 1 <= refcount pr ->
  (mp_prompt_dup p ;;; mp_prompt_drop p) s = Some (tt, s).
Proof.
  intros Hp Hrc. unfold mp_prompt_dup, mp_prompt_drop, mp_prompt_drop_internal. mrun.
  assert (E : (refcount pr + 1 <=? 1) = false) by (apply Z.leb_gt; lia). rewrite E.
  rewrite Z.add_simpl_r. destruct pr. unfold set_refcount. simpl.
  rewrite insert_id by exact Hp. destruct s. reflexivity.
Qed.

Lemma mp_prompt_dup_drop_witness :
  (mp_prompt_dup 24 ;;; mp_prompt_drop 24) nested_state = Some (tt, nested_state).
Proof.
  exact (mp_prompt_dup_drop nested_state 24 _ ltac:(vm_compute; reflexivity) ltac:(vm_compute; congruence)).
Defined.

(** [mp_mresume_dup] followed by [mp_mresume_drop] (lines 502-527) on a
    multi-shot resumption holding at least one reference gives back the
    same state: nothing is freed. *)
Theorem mp_mresume_dup_drop s r m :
  mres s !! r = Some m -> 1 <= mr_refcount m ->
  (mp_mresume_dup r ;;; mp_mresume_drop r) s = Some (tt, s).
Proof.
  intros Hm Hrc. unfold mp_mresume_dup, mp_mresume_drop, modify_mres, load_mres, store_mres, sbind, mpure.
  repeat (simpl; rewrite ?Hm, ?lookup_insert_eq, ?insert_insert_eq).
  assert (E : (mr_refcount m + 1 <=? 1) = false) by (apply Z.leb_gt; lia). rewrite E.
  rewrite Z.add_simpl_r. destruct m. unfold set_mr_refcount. simpl.
  rewrite insert_id by exact Hm. destruct s. reflexivity.
Qed.

Lemma mp_mresume_dup_drop_witness :
  (mp_mresume_dup 64 ;;; mp_mresume_drop 64) multi_state = Some (tt, multi_state).
Proof.
  exact (mp_mresume_dup_drop multi_state 64 _ ltac:(vm_compute; reflexivity) ltac:(vm_compute; congruence)).
Defined.

(** A handle made by [mp_resume_multi r] (bit 2 set) for a non-NULL
    record [r] with bit 2 clear is taken by [mp_resume], [mp_resume_tail],
    [mp_resume_drop] and [mp_resume_dup] (lines 400-445) to the multi-shot
    operations on [r]; [mp_resume_dup] returns the handle itself. *)
Theorem multi_handle_dispatch r arg s :
  Z.land r 4 = 0 -> r <> null ->
  mp_resume (mp_resume_multi r) arg s = mp_mresume r arg s /\
  mp_resume_tail (mp_resume_multi r) arg s = mp_mresume_tail r arg s /\
  mp_resume_drop (mp_resume_multi r) s = mp_mresume_drop r s /\
  mp_resume_dup (mp_resume_multi r) s = (mp_mresume_dup r ;;; mpure (mp_resume_multi r)) s.
Proof.
  intros Hr Hn. destruct (resume_multi_decode r Hr) as [H1 H2].
  unfold mp_resume, mp_resume_tail, mp_resume_drop, mp_resume_dup.
  rewrite H1, H2. rewrite (proj2 (Z.eqb_neq _ _) Hn). repeat split.
Qed.

Lemma multi_handle_dispatch_witness :
  mp_resume_drop (mp_resume_multi 64) multi_state = mp_mresume_drop 64 multi_state.
Proof.
  destruct (multi_handle_dispatch 64 0 multi_state ltac:(vm_compute; reflexivity)
              ltac:(vm_compute; discriminate)) as (_ & _ & H & _).
  exact H.
Defined.

(** The handle a multi-shot yield hands to the yield function
    ([mp_prompt_exec_yield_fun], lines 327-334) has resume count 0 and
    [mp_resume_should_unwind] true; after [mp_resume_dup] on it,
    [mp_resume_should_unwind] is false. *)
Theorem fresh_multi_queries ret p pr s :
  rp_kind ret = MP_YIELD_MULTI -> heap s !! p = Some pr ->
  Z.land (next_alloc s) 4 = 0 -> next_alloc s <> null ->
  exists h s1,
    mp_prompt_exec_yield_fun ret p s = Some (OCall (rp_fun ret) h (rp_arg ret), s1) /\
    mp_resume_resume_count h s1 = Some (0, s1) /\
    mp_resume_should_unwind h s1 = Some (true, s1) /\
    exists s2, mp_resume_dup h s1 = Some (h, s2) /\
               mp_resume_should_unwind h s2 = Some (false, s2).
Proof.
  intros Hk Hp Ha Hn. destruct (resume_multi_decode _ Ha) as [H1 _].
  do 2 eexists. split.
  { unfold mp_prompt_exec_yield_fun. rewrite Hk.
    unfold alloc, sbind, load, mmodify, mpure, mget. simpl. rewrite Hp. reflexivity. }
  unfold mp_resume_resume_count, mp_resume_should_unwind, mp_resume_dup.
  rewrite H1, (proj2 (Z.eqb_neq _ _) Hn).
  unfold load_mres, sbind, mpure. simpl. rewrite lookup_insert_eq. simpl.
  split; [reflexivity|]. split; [reflexivity|].
  unfold mp_mresume_dup, modify_mres, sbind, load_mres, store_mres, mpure. simpl.
  rewrite lookup_insert_eq. simpl. rewrite lookup_insert_eq.
  eexists. split; [reflexivity|]. simpl. rewrite lookup_insert_eq. reflexivity.
Qed.

Lemma fresh_multi_queries_witness :
  exists h s1,
    mp_prompt_exec_yield_fun (mkReturnPoint MP_YIELD_MULTI 200 0) 24 nested_state =
      Some (OCall 200 h 0, s1) /\ mp_resume_should_unwind h s1 = Some (true, s1).
Proof.
  destruct (fresh_multi_queries (mkReturnPoint MP_YIELD_MULTI 200 0) 24 _ nested_state eq_refl
              ltac:(vm_compute; reflexivity) ltac:(vm_compute; reflexivity)
              ltac:(vm_compute; discriminate)) as (h & s1 & H1 & _ & H2 & _).
  exists h, s1. split; [exact H1 | exact H2].
Defined.

(** Yielding to an active prompt [p] on the current chain that was entered
    with a return point ([mp_yield_internal], lines 464-483) jumps to that
    return point; resuming [p] from the receiver ([mp_prompt_resume], lines
    349-372) then jumps back to the resume point the yield set up, restores
    the prompt top and [p->parent] to their values before the yield, makes
    [p] active again with the receiver's return point, and leaves the other
    prompts unchanged. *)
Theorem yield_resume_roundtrip rkind p fn arg arg' s pr :
  heap s !! p = Some pr -> top pr = null -> return_point pr <> null ->
  mp_prompt_is_ancestor p s = Some (true, s) -> 0 < next_alloc s ->
  exists s1 s2,
    mp_yield_internal rkind p fn arg s =
      Some (TReturn (return_point pr) (mkReturnPoint rkind fn arg), s1) /\
    mp_prompt_resume p arg' s1 = Some (TResume (next_alloc s) arg', s2) /\
    prompt_top s2 = prompt_top s /\
    (exists pr2, heap s2 !! p = Some pr2 /\ parent pr2 = parent pr /\ top pr2 = null /\
                 return_point pr2 = next_alloc s + 8) /\
    (forall q, q <> p -> heap s2 !! q = heap s !! q).
Proof.
  intros Hp _ Hrp _ Ha.
  set (sa := set_next_alloc (next_alloc s + 8) s).
  assert (Hpa : heap sa !! p = Some pr) by exact Hp.
  pose proof (unlink_eq sa p (next_alloc s) pr Hpa) as Hu.
  set (s1 := mkSt (<[p := unlink_result pr (prompt_top sa) (next_alloc s)]> (heap sa))
                  (parent pr) (mres sa) (events sa) (next_alloc sa) (jmp_sp sa)) in Hu.
  set (sb := set_next_alloc (next_alloc s1 + 8) s1).
  assert (Hpb : heap sb !! p = Some (unlink_result pr (prompt_top sa) (next_alloc s))) by apply lookup_insert_eq.
  pose proof (link_eq sb p (next_alloc s1) _ Hpb) as Hl.
  do 2 eexists. split.
  { unfold mp_yield_internal. unfold sbind at 1. unfold alloc. cbv beta.
    rewrite (sbind_ret _ _ _ _ _ Hu). rewrite (proj2 (Z.eqb_neq _ _) Hrp). reflexivity. }
  split.
  { unfold mp_prompt_resume. unfold sbind at 1. unfold alloc. cbv beta.
    rewrite (sbind_ret _ _ _ _ _ Hl). simpl.
    assert (E : (next_alloc s =? null) = false) by (apply Z.eqb_neq; unfold null; lia).
    rewrite E. reflexivity. }
  assert (E8 : (next_alloc s + 8 =? null) = false) by (apply Z.eqb_neq; unfold null; lia).
  simpl. split; [reflexivity|]. split.
  - eexists. split; [apply lookup_insert_eq|]. simpl. rewrite E8. repeat split.
  - intros q Hq. rewrite !lookup_insert_ne by congruence. reflexivity.
Qed.

Lemma yield_resume_roundtrip_witness :
  exists s1 s2,
    mp_yield_internal MP_YIELD_ONCE 8 200 0 nested_state =
      Some (TReturn 16 (mkReturnPoint MP_YIELD_ONCE 200 0), s1) /\
    mp_prompt_resume 8 5 s1 = Some (TResume (next_alloc nested_state) 5, s2) /\
    prompt_top s2 = prompt_top nested_state.
Proof.
  destruct (yield_resume_roundtrip MP_YIELD_ONCE 8 200 0 5 nested_state _
              ltac:(vm_compute; reflexivity) ltac:(vm_compute; reflexivity)
              ltac:(vm_compute; discriminate) ltac:(vm_compute; reflexivity)
              ltac:(vm_compute; reflexivity))
    as (s1 & s2 & H1 & H2 & H3 & _).
  exists s1, s2. split; [exact H1|]. split; [exact H2 | exact H3].
Defined.

(** [mp_prompt fun arg] (lines 381-384) creates a prompt [p] at the base
    of a fresh stack and enters it: the transfer is the initial entry on
    [p]'s stack, [p] becomes the prompt top with the old top as parent and
    the receiver's return point, the other prompts are unchanged, and
    [mp_gstack_current] (lines 157-160) then returns [p]'s stack. *)
Theorem mp_prompt_enters c fn arg s :
  0 < next_alloc s -> Z.land (next_alloc s) 4 = 0 ->
  exists s1,
    mp_prompt c fn arg s = Some (TEnter (next_alloc s) (next_alloc s) arg, s1) /\
    prompt_top s1 = next_alloc s /\
    heap s1 !! next_alloc s =
      Some (mkPrompt (prompt_top s) null 1 (next_alloc s) (next_alloc s + 8) null c fn null) /\
    (forall q, q <> next_alloc s -> heap s1 !! q = heap s !! q) /\
    mp_gstack_current s1 = Some (next_alloc s, s1).
Proof.
  intros Ha Hal. destruct (mp_prompt_enter_spec c fn arg s Ha Hal) as (s1 & H1 & H2 & H3 & H4 & H5 & _).
  exists s1. repeat split; assumption.
Qed.

Lemma mp_prompt_enters_witness :
  exists s1, mp_prompt 300 100 0 init_st = Some (TEnter 8 8 0, s1) /\ prompt_top s1 = 8.
Proof.
  destruct (mp_prompt_enters 300 100 0 init_st ltac:(vm_compute; reflexivity)
              ltac:(vm_compute; reflexivity)) as (s1 & H1 & H2 & _).
  exists s1. split; [exact H1 | exact H2].
Defined.

(** A prompt entered by [mp_prompt] whose start function returns at once
    (RET in [mp_prompt_stack_entry], lines 285-314) jumps to the return
    point of its entry with kind [MP_RETURN]; the receiver
    ([mp_prompt_exec_yield_fun], lines 317-326) returns the result and drops
    the prompt, which frees it: the prompts, the prompt top and the
    multi-shot records are back to what they were before [mp_prompt]. *)
Theorem mp_prompt_return_roundtrip c fn arg v s :
  0 < next_alloc s -> Z.land (next_alloc s) 4 = 0 -> heap s !! next_alloc s = None ->
  exists s1 s2 s3,
    mp_prompt c fn arg s = Some (TEnter (next_alloc s) (next_alloc s) arg, s1) /\
    mp_prompt_stack_return (next_alloc s) v s1 =
      Some (TReturn (next_alloc s + 8) (mkReturnPoint MP_RETURN null v), s2) /\
    mp_prompt_exec_yield_fun (mkReturnPoint MP_RETURN null v) (next_alloc s) s2 =
      Some (OValue v, s3) /\
    heap s3 = heap s /\ prompt_top s3 = prompt_top s /\ mres s3 = mres s.
Proof.
  intros Ha Hal Hfresh.
  destruct (mp_prompt_enter_spec c fn arg s Ha Hal) as (s1 & Hrun1 & Htop1 & Hp1 & Hq1 & _ & Hm1).
  set (p := next_alloc s) in *.
  pose proof (unlink_eq s1 p null _ Hp1) as Hu.
  set (s2 := mkSt _ _ _ _ _ _) in Hu.
  set (prU := unlink_result (mkPrompt (prompt_top s) null 1 p (p + 8) null c fn null) (prompt_top s1) null).
  assert (Hp2 : heap s2 !! p = Some prU) by apply lookup_insert_eq.
  assert (Hc2 : chain (heap s2) (top prU) [p]).
  { assert (Ht : top prU = p) by (unfold prU, unlink_result; simpl; exact Htop1). rewrite Ht.
    apply (chain_cons _ p prU); [unfold p, null; lia | exact Hp2 | constructor]. }
  destruct (drop_last_spec s2 p false prU [p] Hp2 ltac:(simpl; lia) Hc2 ltac:(left; reflexivity))
    as (s3 & Hrun3 & Htop3 & Hm3 & Hin3 & Hout3).
  exists s1, s2, s3. split; [exact Hrun1|]. split.
  { unfold mp_prompt_stack_return. rewrite (sbind_ret _ _ _ _ _ Hu).
    assert (E8 : (p + 8 =? null) = false) by (apply Z.eqb_neq; unfold p, null; lia).
    cbn [return_point]. rewrite E8. reflexivity. }
  split.
  { unfold mp_prompt_exec_yield_fun. simpl. unfold mp_prompt_drop.
    rewrite (sbind_ret _ _ _ _ _ Hrun3). reflexivity. }
  split; [|split].
  - apply map_eq. intros q. destruct (decide (q = p)) as [->|Hne].
    + rewrite Hin3 by (left; reflexivity). symmetry. exact Hfresh.
    + rewrite Hout3 by (simpl; intuition congruence). simpl.
      rewrite lookup_insert_ne by congruence. apply Hq1. exact Hne.
  - rewrite Htop3. reflexivity.
  - rewrite Hm3. simpl. exact Hm1.
Qed.

Lemma mp_prompt_return_roundtrip_witness :
  exists s1 s2 s3,
    mp_prompt 300 100 0 init_st = Some (TEnter 8 8 0, s1) /\
    mp_prompt_stack_return 8 7 s1 = Some (TReturn 16 (mkReturnPoint MP_RETURN null 7), s2) /\
    mp_prompt_exec_yield_fun (mkReturnPoint MP_RETURN null 7) 8 s2 = Some (OValue 7, s3) /\
    heap s3 = heap init_st.
Proof.
  destruct (mp_prompt_return_roundtrip 300 100 0 7 init_st ltac:(vm_compute; reflexivity)
              ltac:(vm_compute; reflexivity) ltac:(vm_compute; reflexivity))
    as (s1 & s2 & s3 & H1 & H2 & H3 & H4 & _).
  exists s1, s2, s3. split; [exact H1|]. split; [exact H2|]. split; [exact H3 | exact H4].
Defined.

(** [mp_prompt_link p ret] (lines 244-258) sets [p->parent] to the current
    top, the current top to [p->top] and [p->top] to NULL; when [ret] is
    non-NULL it stores it in [p->return_point] and calls
    [mp_unwind_frame_update]; it leaves [p->resume_point] and the other
    prompts unchanged and returns [p->resume_point].  [resume_point] is NULL
    after [mp_prompt_create] (lines 185-201) and [mp_prompt_unlink] (lines
    261-271) stores its [res] argument there. *)
Theorem mp_prompt_link_spec s p ret pr :
  heap s !! p = Some pr ->
  (exists s',
     mp_prompt_link p ret s = Some (resume_point pr, s') /\
     prompt_top s' = top pr /\
     (exists pr', heap s' !! p = Some pr' /\
        parent pr' = prompt_top s /\ top pr' = null /\
        return_point pr' = (if ret =? null then return_point pr else ret) /\
        resume_point pr' = resume_point pr /\
        refcount pr' = refcount pr /\ gstack pr' = gstack pr) /\
     (forall q, q <> p -> heap s' !! q = heap s !! q) /\
     events s' = events s ++ (if ret =? null then [] else [EvUnwindFrameUpdate (unwind_frame pr) ret])) /\
  (forall fn a s1, mp_prompt_create fn a s = Some (next_alloc s, s1) ->
     exists prc, heap s1 !! next_alloc s = Some prc /\ resume_point prc = null) /\
  (forall res r s1, mp_prompt_unlink p res s = Some (r, s1) ->
     exists pru, heap s1 !! p = Some pru /\ resume_point pru = res).
Proof.
  intros Hp. split; [|split].
  - eexists. split; [apply link_eq; exact Hp|]. simpl. split; [reflexivity|]. split.
    + eexists. split; [apply lookup_insert_eq|]. simpl. repeat split.
    + split; [|reflexivity]. intros q Hq. apply lookup_insert_ne. congruence.
  - intros fn a s1 Hc. rewrite create_eq in Hc. injection Hc as <-.
    eexists. split; [simpl; apply lookup_insert_eq | reflexivity].
  - intros res r s1 Hu. rewrite (unlink_eq _ _ _ _ Hp) in Hu. injection Hu as _ <-.
    eexists. split; [simpl; apply lookup_insert_eq | reflexivity].
Qed.

Lemma mp_prompt_link_spec_witness :
  exists pr s', heap nested_state !! 24 = Some pr /\
    mp_prompt_link 24 72 nested_state = Some (resume_point pr, s') /\
    prompt_top s' = top pr.
Proof.
  destruct (mp_prompt_link_spec nested_state 24 72 _ ltac:(vm_compute; reflexivity))
    as [(s' & Hrun & Htop & _) _].
  do 2 eexists. split; [vm_compute; reflexivity|]. split; [exact Hrun | exact Htop].
Defined.

(** [mp_prompt_is_ancestor p] (lines 175-181) returns true exactly when
    [p] is on the current chain (walking [parent] from the prompt top), and
    changes nothing. *)
Theorem is_ancestor_spec s p cur :
  chain (heap s) (prompt_top s) cur ->
  exists b, mp_prompt_is_ancestor p s = Some (b, s) /\ (b = true <-> In p cur).
Proof.
  intros Hc. unfold mp_prompt_is_ancestor, sbind, mget.
  apply (ancestor_loop_spec s p cur _ (prompt_top s) null Hc).
  - pose proof (chain_length_le _ _ _ Hc). lia.
  - reflexivity.
Qed.

Lemma is_ancestor_spec_witness :
  let s1 := run_chain_state (OpLink 24 72) nested_state in
  mp_prompt_is_ancestor 8 s1 = Some (true, s1) /\
  mp_prompt_is_ancestor 24 nested_state = Some (false, nested_state).
Proof.
  intros s1.
  destruct (is_ancestor_spec s1 8 [40; 24; 8] ltac:(chain_tac)) as (b1 & H1 & Hb1).
  destruct (is_ancestor_spec nested_state 24 [8] ltac:(chain_tac)) as (b2 & H2 & Hb2).
  assert (E1 : b1 = true) by (apply Hb1; simpl; tauto). subst b1.
  destruct b2.
  - exfalso. destruct (proj1 Hb2 eq_refl) as [H|[]]. discriminate.
  - split; assumption.
Defined.

(** Dropping the last reference of an unused multi-shot resumption
    ([mp_mresume_drop], lines 509-527) whose prompt holds its last reference
    frees the record ([r] leaves the record map, [mp_free(r)] is the last
    event) and the prompt's whole captured chain; the other prompts and the
    prompt top are unchanged. *)
Theorem mresume_drop_last s r m pr seg :
  mres s !! r = Some m -> mr_refcount m <= 1 -> mr_save m = [] ->
  heap s !! mr_prompt m = Some pr -> refcount pr <= 1 ->
  chain (heap s) (top pr) seg -> In (mr_prompt m) seg ->
  exists s', mp_mresume_drop r s = Some (tt, s') /\
    mres s' = delete r (mres s) /\ prompt_top s' = prompt_top s /\
    (forall x, In x seg -> heap s' !! x = None) /\
    (forall x, ~ In x seg -> heap s' !! x = heap s !! x) /\
    last (events s') = Some (EvFree r).
Proof.
  intros Hm Hrc Hsv Hp Hprc Hc Hin.
  set (s1 := set_mres (<[r := set_mr_refcount (mr_refcount m - 1) m]> (mres s)) s).
  destruct (drop_last_spec s1 (mr_prompt m) false pr seg Hp Hprc Hc Hin)
    as (s2 & Hrun2 & Htop2 & Hm2 & Hin2 & Hout2).
  eexists. split.
  { unfold mp_mresume_drop. unfold sbind at 1, load_mres at 1. rewrite Hm. cbv beta zeta.
    unfold sbind at 1, store_mres. rewrite Hm.
    assert (E : (mr_refcount m <=? 1) = true) by (apply Z.leb_le; lia). rewrite E.
    rewrite Hsv. unfold sbind at 1. simpl mp_mresume_drop_saves. unfold mpure at 1.
    unfold sbind at 1, load_mres. fold s1. simpl (mres s1). rewrite lookup_insert_eq.
    unfold sbind at 1. simpl mr_prompt. unfold mp_prompt_drop. rewrite Hrun2. reflexivity. }
  simpl. split; [|split; [exact Htop2|split; [exact Hin2|split]]].
  - rewrite Hm2. simpl. apply delete_insert_eq.
  - exact Hout2.
  - apply last_snoc.
Qed.

Lemma mresume_drop_last_witness :
  exists s', mp_mresume_drop 64 multi_state = Some (tt, s') /\ mres s' !! 64 = None /\
             heap s' !! 24 = None.
Proof.
  destruct (mresume_drop_last multi_state 64 _ _ [40; 24]
              ltac:(vm_compute; reflexivity) ltac:(vm_compute; congruence)
              ltac:(vm_compute; reflexivity) ltac:(vm_compute; reflexivity)
              ltac:(vm_compute; congruence) ltac:(vm_compute; repeat (econstructor; [discriminate | reflexivity |]); constructor) ltac:(vm_compute; tauto))
    as (s' & Hrun & Hm & _ & Hin & _).
  exists s'. split; [exact Hrun|]. split.
  - rewrite Hm. apply lookup_delete_eq.
  - apply Hin. simpl. tauto.
Defined.
